(** * wingshack-whatsapp-worker: a shallow embedding of [src/index.ts]

    The worker relays outbound jobs from the [outbox_jobs] table to a
    WhatsApp session.  This development embeds

    - the phone-number helpers ([normalizePhone], [e164ToWhatsAppId]),
    - the lock-file cleanup of the browser profile
      ([cleanupChromiumLockFiles] and the profile cleaning inlined in
      [startWhatsAppClient]),
    - the acquisition retry loop of [startWhatsAppClient],
    - the polling tick [processOutboundJob], both as one function of the
      outcomes of its awaited calls and as a transition system in which
      the ticks of several worker processes interleave on one store,

    and states the properties of the specification over them.

    Conventions.  A JavaScript string is a [string] whose characters are
    read as the code units U+0000..U+00FF.  A JavaScript number holding
    an integer is a [Z].  A nullable column is an [option].  A call of
    the file system that can throw is given each of its outcomes; so is
    the value that a rejected [sendText] throws.  Console output is not
    modelled. *)

From Stdlib Require Import ZArith Ascii.
From stdpp Require Import gmap strings list fin_maps relations.

Local Open Scope Z_scope.

#[local] Set Warnings "-register-all".

(* ===================================================================== *)
(** * JavaScript string primitives                                        *)
(* ===================================================================== *)

Module JsString.

(** [WhiteSpace] and [LineTerminator] code units below U+0100, the
    characters [String.prototype.trim] strips: TAB, LF, VT, FF, CR,
    SP and NBSP. *)
Definition isWhiteSpace (c : ascii) : bool :=
  let n := nat_of_ascii c in
  ((9 <=? n) && (n <=? 13) || (n =? 32) || (n =? 160))%nat.

Fixpoint trimStart (s : string) : string :=
  match s with
  | EmptyString => EmptyString
  | String c r => if isWhiteSpace c then trimStart r else s
  end.

Fixpoint trimEnd (s : string) : string :=
  match s with
  | EmptyString => EmptyString
  | String c r =>
      match trimEnd r with
      | EmptyString => if isWhiteSpace c then EmptyString else String c EmptyString
      | r' => String c r'
      end
  end.

(** [s.trim()] *)
Definition trim (s : string) : string := trimEnd (trimStart s).

(** [s.split(sep)[0]] for a one-character separator: the part of [s]
    before the first [sep], all of [s] when there is none. *)
Fixpoint split0 (sep : ascii) (s : string) : string :=
  match s with
  | EmptyString => EmptyString
  | String c r => if Ascii.eqb c sep then EmptyString else String c (split0 sep r)
  end.

(** [s.startsWith(p)] *)
Fixpoint startsWith (p s : string) : bool :=
  match p, s with
  | EmptyString, _ => true
  | String _ _, EmptyString => false
  | String a p', String b s' => Ascii.eqb a b && startsWith p' s'
  end.

(** [s.includes(p)] *)
Fixpoint includes (p s : string) : bool :=
  startsWith p s ||
  match s with
  | EmptyString => false
  | String _ s' => includes p s'
  end.

(** [s.replace(/^\+/, '')]: drops one leading plus sign. *)
Definition stripLeadingPlus (s : string) : string :=
  match s with
  | String c r => if Ascii.eqb c "+" then r else s
  | EmptyString => EmptyString
  end.

(** [c.toLowerCase()] on one code unit below U+0100: A-Z and the
    capital letters U+00C0..U+00DE (without the sign U+00D7) move up by
    32, every other code unit is kept. *)
Definition lowerChar (c : ascii) : ascii :=
  let n := nat_of_ascii c in
  if ((65 <=? n) && (n <=? 90) ||
      (192 <=? n) && (n <=? 222) && negb (n =? 215))%nat
  then ascii_of_nat (n + 32) else c.

(** [s.toLowerCase()] *)
Fixpoint toLowerCase (s : string) : string :=
  match s with
  | EmptyString => EmptyString
  | String c r => String (lowerChar c) (toLowerCase r)
  end.

(** Number of occurrences of the code unit [c] in [s]. *)
Fixpoint count (c : ascii) (s : string) : nat :=
  match s with
  | EmptyString => O
  | String d r => ((if Ascii.eqb d c then 1 else 0) + count c r)%nat
  end.

(** A string that does not begin with white space. *)
Definition headOk (s : string) : Prop :=
  match s with
  | EmptyString => True
  | String c _ => isWhiteSpace c = false
  end.

(** A string of white space only, the empty string included: the
    strings [s] with [s.trim() === '']. *)
Fixpoint blank (s : string) : bool :=
  match s with
  | EmptyString => true
  | String c r => isWhiteSpace c && blank r
  end.

End JsString.

Import JsString.

(* ===================================================================== *)
(** * Phone numbers                                                       *)
(* ===================================================================== *)

(** [normalizePhone]: the part before the first at sign, trimmed, with a
    plus sign put in front unless it has one. *)
Definition normalizePhone (phone : string) : string :=
  let cleaned := trim (split0 "@" phone) in
  if startsWith "+" cleaned then cleaned else "+" +:+ cleaned.

(** [extractPhoneFromWhatsAppId] *)
Definition extractPhoneFromWhatsAppId (whatsappId : string) : string :=
  split0 "@" whatsappId.

(** [e164ToWhatsAppId]: trimmed, one leading plus sign dropped, and the
    suffix of an individual chat appended. *)
Definition e164ToWhatsAppId (e164Phone : string) : string :=
  let cleaned := stripLeadingPlus (trim e164Phone) in
  cleaned +:+ "@c.us".

(* ===================================================================== *)
(** * The browser profile directory                                       *)
(* ===================================================================== *)

(** How [unlinkSync] answers for a file: it removes it; it throws until
    [chmodSync(path, 0o666)] has been called on the file and removes it
    after that; or it throws whatever is tried ([chmodSync] may throw
    as well). *)
Inductive access := Removable | AfterChmod | Locked.

Global Instance access_eq_dec : EqDecision access.
Proof. solve_decision. Defined.

(** What [statSync] finds at a path: a file (anything that is no
    directory) with its bytes and the way [unlinkSync] answers for it;
    a directory with its named entries in [readdirSync] order; or a
    directory, not empty, on which [readdirSync] throws.  An entry on
    which [statSync] throws is [None]: a symbolic link whose target is
    missing, as the [SingletonLock] that Chromium writes is.  A link to
    an existing target reads as that target.  The profile path itself
    is missing, a file or a directory. *)
Inductive node :=
| File (content : string) (a : access)
| Dir (entries : list (string * option node))
| Unreadable.

Definition lockFiles : list string :=
  ["SingletonLock"; "SingletonCookie"; "SingletonSocket"; "Lockfile"].

(** The test [isLockFile] of [cleanLockFilesInDir]. *)
Definition isLockFile (entry : string) : bool :=
  bool_decide (entry ∈ lockFiles)
  || startsWith "Singleton" entry
  || String.eqb entry "Lockfile"
  || startsWith "lock" (toLowerCase entry).

(** [unlinkSync], and on its failure [chmodSync] and [unlinkSync] once
    more, all failures caught: whether the file is gone after that. *)
Definition forceUnlink (a : access) : bool :=
  match a with
  | Removable | AfterChmod => true
  | Locked => false
  end.

(** The body of [entries.forEach] in [cleanLockFilesInDir]: [recurse] is
    the call on a sub-directory; a file with a lock name is unlinked if
    it can be; an entry on which [statSync] throws is passed over. *)
Definition cleanEntry (recurse : node → node) (e : string * option node)
    : list (string * option node) :=
  match e.2 with
  | None => [e]
  | Some d =>
      match d with
      | Dir _ | Unreadable => [(e.1, Some (recurse d))]
      | File _ a => if isLockFile e.1 && forceUnlink a then [] else [e]
      end
  end.

(** [cleanLockFilesInDir(dir, depth)]: nothing is touched once [depth]
    exceeds 3; where [readdirSync] throws, on a path that is no
    directory or on a directory that cannot be read, the error is
    ignored. *)
Fixpoint cleanLockFilesInDir (depth : nat) (dir : node) : node :=
  match dir with
  | File c a => File c a
  | Dir entries =>
      if (3 <? depth)%nat then Dir entries
      else Dir (flat_map (cleanEntry (cleanLockFilesInDir (S depth))) entries)
  | Unreadable => Unreadable
  end.

(** [cleanupChromiumLockFiles(sessionProfileDir)], on the node found at
    that path, [None] when the path does not exist. *)
Definition cleanupChromiumLockFiles (profile : option node) : option node :=
  cleanLockFilesInDir 0 <$> profile.

(** The entries of a directory that [rmSync] is removing, in order, up
    to the first one that cannot be removed: what is left of them. *)
Definition rmEntries (rm : node → option node)
    : list (string * option node) → list (string * option node) :=
  fix go entries :=
    match entries with
    | [] => []
    | (name, None) :: rest => go rest
    | (name, Some n) :: rest =>
        match rm n with
        | None => go rest
        | Some leftover => (name, Some leftover) :: rest
        end
    end.

(** [fs.rmSync(path, { recursive: true, force: true })] on what is at
    [path], as on the Linux hosts the worker runs on: [None] when all of
    it is removed, otherwise what is left when it throws.  It unlinks
    files and links, with no change of mode before, and empties a
    directory entry by entry before it removes it; the first entry that
    cannot be removed, or a directory that cannot be read, ends it. *)
Fixpoint rmSync (n : node) : option node :=
  match n with
  | File c Removable => None
  | File c a => Some (File c a)
  | Dir entries =>
      match rmEntries rmSync entries with
      | [] => None
      | leftover => Some (Dir leftover)
      end
  | Unreadable => Some Unreadable
  end.

Definition sessionTokenPatterns : list string :=
  [".data"; ".wppconnect"; "wppconnect.json"].

Definition browserProfileDirs : list string :=
  ["Default"; "Profile"; "System Profile"; "Crash Reports"; "Crashpad"].

(** [isSessionToken] and [isBrowserProfile] of [startWhatsAppClient]. *)
Definition isSessionToken (file : string) : bool :=
  existsb (λ pattern, includes pattern file || startsWith ".wppconnect" file)
          sessionTokenPatterns.

Definition isBrowserProfile (file : string) : bool :=
  bool_decide (file ∈ browserProfileDirs)
  || startsWith "Singleton" file
  || String.eqb file "Lockfile"
  || startsWith "lock" file.

(** The body of [files.forEach] in [startWhatsAppClient]: an entry that
    is browser profile data and no session token is removed, a directory
    by [rmSync], anything else by [unlinkSync]; an entry on which
    [statSync], [rmSync] or [unlinkSync] throws is passed over, with
    what [rmSync] left of it. *)
Definition removeEntry (e : string * option node) : list (string * option node) :=
  if isBrowserProfile e.1 && negb (isSessionToken e.1) then
    match e.2 with
    | None => [e]
    | Some d =>
        match d with
        | Dir _ | Unreadable =>
            match rmSync d with
            | None => []
            | Some leftover => [(e.1, Some leftover)]
            end
        | File _ Removable => []
        | File _ _ => [e]
        end
    end
  else [e].

(** The profile cleaning of [startWhatsAppClient]; where [readdirSync]
    throws, the [catch] cleans the lock files, which changes no more
    than the cleanup before it did. *)
Definition removeBrowserProfile (dir : node) : node :=
  match dir with
  | File c a => File c a
  | Dir entries => Dir (flat_map removeEntry entries)
  | Unreadable => Unreadable
  end.

(** The part of an attempt of [startWhatsAppClient] that runs before
    [create]: clean an existing profile directory, or make an empty one,
    then clean the lock files once more. *)
Definition prepareProfile (profile : option node) : option node :=
  let prepared :=
    match profile with
    | Some _ => removeBrowserProfile <$> cleanupChromiumLockFiles profile
    | None => Some (Dir [])
    end in
  cleanupChromiumLockFiles prepared.

(* ===================================================================== *)
(** * Session acquisition                                                 *)
(* ===================================================================== *)

(** The handle returned by [create]. *)
Inductive Whatsapp := WhatsappClient (session : string).

Inductive create_result :=
| Created (c : Whatsapp)
| CreateFailed (message : string).

(** What an acquisition does that can be observed from outside. *)
Inductive startup_event :=
| Wait (ms : Z)
| Create (attempt : Z).

Inductive startup_result :=
| Ready (c : Whatsapp)
| Fatal (message : string).

Definition maxRetries : Z := 3.

(** The test of the catch block for a singleton lock error. *)
Definition isSingletonLockError (errorMessage : string) : bool :=
  includes "profile appears to be in use" errorMessage
  || includes "Code: 21" errorMessage.

Section Acquisition.

(** [create] as the outside world answers it: on the given attempt and
    profile directory it resolves or rejects, and leaves the profile
    directory in some state. *)
Variable create : Z → option node → create_result * option node.

(** The [for] loop of [startWhatsAppClient] over the attempt numbers
    still to run; [lastError], the profile directory and the events so
    far are carried along. *)
Fixpoint attemptLoop (attempts : list Z) (lastError : option string)
    (profile : option node) (trace : list startup_event)
    : startup_result * option node * list startup_event :=
  match attempts with
  | [] =>
      (Fatal (default "Failed to start WhatsApp client" lastError), profile, trace)
  | attempt :: rest =>
      let trace1 := trace ++ [Wait 1000; Create attempt] in
      match create attempt (prepareProfile profile) with
      | (Created c, profile1) => (Ready c, profile1, trace1)
      | (CreateFailed errorMessage, profile1) =>
          if isSingletonLockError errorMessage then
            let profile2 :=
              cleanupChromiumLockFiles
                (cleanupChromiumLockFiles (cleanupChromiumLockFiles profile1)) in
            let trace2 := trace1 ++ [Wait 300; Wait 300] in
            if attempt <? maxRetries then
              let delay := Z.max 1000 (500 * attempt) in
              attemptLoop rest (Some errorMessage) profile2 (trace2 ++ [Wait delay])
            else if attempt =? maxRetries then (Fatal errorMessage, profile2, trace2)
            else attemptLoop rest (Some errorMessage) profile2 trace2
          else if attempt =? maxRetries then (Fatal errorMessage, profile1, trace1)
          else attemptLoop rest (Some errorMessage) profile1 trace1
      end
  end.

(** [startWhatsAppClient]: attempts 1 to [maxRetries]. *)
Definition startWhatsAppClient (profile : option node)
    : startup_result * option node * list startup_event :=
  attemptLoop (seqZ 1 maxRetries) None profile [].

End Acquisition.

(* ===================================================================== *)
(** * The job store                                                       *)
(* ===================================================================== *)

Inductive job_status := queued | processing | sent | failed.

Global Instance job_status_eq_dec : EqDecision job_status.
Proof. solve_decision. Defined.

(** The columns of a row of [outbox_jobs] other than its primary key
    [id]; the table maps each [id] to its row. *)
Record job := mkJob {
  to_phone_e164 : option string;
  body : string;
  status : job_status;
  attempts : option Z;
  last_error : option string;
  created_at : Z;
  message_id : option string;
}.

(** [outbox_jobs] by [id], and the [status] column of [messages] by
    [id]. *)
Record store := mkStore {
  outbox_jobs : gmap string job;
  messages : gmap string string;
}.

Definition withStatus (s : job_status) (j : job) : job :=
  mkJob (to_phone_e164 j) (body j) s (attempts j) (last_error j)
        (created_at j) (message_id j).

Definition withAttempts (a : Z) (j : job) : job :=
  mkJob (to_phone_e164 j) (body j) (status j) (Some a) (last_error j)
        (created_at j) (message_id j).

Definition withLastError (e : string) (j : job) : job :=
  mkJob (to_phone_e164 j) (body j) (status j) (attempts j) (Some e)
        (created_at j) (message_id j).

Definition withJobs (jobs : gmap string job) (db : store) : store :=
  mkStore jobs (messages db).

Definition withMessages (msgs : gmap string string) (db : store) : store :=
  mkStore (outbox_jobs db) msgs.

Definition isTerminal (s : job_status) : bool :=
  match s with
  | sent | failed => true
  | queued | processing => false
  end.

(** [a || d] on a nullable number: [d] when [a] is null or zero. *)
Definition orElse (a : option Z) (d : Z) : Z :=
  match a with
  | Some n => if n =? 0 then d else n
  | None => d
  end.

(** Truthiness of a nullable string, as in [if (updatedJob.message_id)]. *)
Definition truthy (m : option string) : option string :=
  match m with
  | Some s => if String.eqb s EmptyString then None else Some s
  | None => None
  end.

(** [.order('created_at', { ascending: true }).limit(1)]: the row with
    the least [created_at], the first such row in the order of the
    table. *)
Definition older (a b : string * job) : string * job :=
  if created_at b.2 <? created_at a.2 then b else a.

Definition oldest (rows : list (string * job)) : option (string * job) :=
  match rows with
  | [] => None
  | r :: rest => Some (foldl older r rest)
  end.

(** The query of the tick. *)
Definition selectOldestQueued (jobs : gmap string job) : option (string * job) :=
  oldest (List.filter (λ r, bool_decide (status r.2 = queued)) (map_to_list jobs)).

(** The claim: [update({status: 'processing', attempts}).eq('id', id)
    .eq('status', 'queued').select().single()].  The row is rewritten
    and returned when it exists and is queued; otherwise no row matches,
    the table is as before and [single()] has no row to return. *)
Definition claimUpdate (id : string) (currentAttempts : Z) (jobs : gmap string job)
    : gmap string job * option job :=
  match jobs !! id with
  | Some j =>
      if bool_decide (status j = queued) then
        let j' := withAttempts currentAttempts (withStatus processing j) in
        (<[id := j']> jobs, Some j')
      else (jobs, None)
  | None => (jobs, None)
  end.

(** [update(f).eq('id', id)] on either table. *)
Definition updateById {A} (f : A → A) (id : string) (t : gmap string A) : gmap string A :=
  alter f id t.

(* ===================================================================== *)
(** * The polling tick                                                    *)
(* ===================================================================== *)

(** How an awaited call on the store ends: it takes effect and resolves
    with no [error], or it has no effect and resolves with an [error]
    that carries [message].  The store client reports a failure in
    [error] and does not throw. *)
Inductive reply := Ok | Err (message : string).

(** The [message] property of the value caught as [sendError], as
    [update({ ..., last_error: sendError.message })] passes it on: no
    such property ([undefined], as for a thrown string or an object
    without the field), [null], or a string (or a value that the store
    writes to the text column as [s]). *)
Inductive js_message :=
| Undefined
| Null
| Text (s : string).

(** The value a rejected [sendText] throws ([sendError: any]): [null] or
    [undefined], on which reading [.message] throws in its turn, or a
    value with its [message] property. *)
Inductive thrown :=
| Nullish
| Value (message : js_message).

(** How [client.sendText] ends. *)
Inductive send_reply := Sent | Rejected (e : thrown).

(** What comes back from an awaited call: from the store, or from
    [sendText]. *)
Inductive answer :=
| FromStore (r : reply)
| FromSend (r : send_reply).

Coercion FromStore : reply >-> answer.
Coercion FromSend : send_reply >-> answer.

(** The module-level variables [client] and [isProcessingJob]. *)
Record worker := mkWorker {
  client : option Whatsapp;
  isProcessingJob : bool;
}.

(** Where an invocation of [processOutboundJob] that passed the guard is
    suspended: the awaited call, with the local variables still needed. *)
Inductive tick_state :=
| AwaitQuery
| AwaitClaim (id : string) (job : job)
| AwaitSend (id : string) (updatedJob : job) (whatsappId : string)
| AwaitMarkSent (id : string) (updatedJob : job)
| AwaitMessageSent (mid : string)
| AwaitMarkFailure (id : string) (updatedJob : job) (message : js_message)
| AwaitMessageFailed (mid : string).

Definition applyIfOk {A} (r : reply) (f : A → A) (x : A) : A :=
  match r with Ok => f x | Err _ => x end.

(** Whether [a] is an answer to the call awaited in [k]: [sendText] is
    answered by the session, every other call by the store. *)
Definition fits (k : tick_state) (a : answer) : bool :=
  match k, a with
  | AwaitSend _ _ _, FromSend _ => true
  | AwaitSend _ _ _, FromStore _ => false
  | _, FromStore _ => true
  | _, FromSend _ => false
  end.

(** [last_error: message] in the object given to [update]: a key whose
    value is [undefined] is left out of the request, [null] empties the
    column. *)
Definition writeLastError (message : js_message) (j : job) : job :=
  match message with
  | Undefined => j
  | Null =>
      mkJob (to_phone_e164 j) (body j) (status j) (attempts j) None
            (created_at j) (message_id j)
  | Text s => withLastError s j
  end.

Section Tick.

Variable MAX_ATTEMPTS : Z.

(** The code between the claim and the next awaited call; [None] is
    the [TypeError] of [normalizePhone] on a null phone, which the
    outer [catch] logs. *)
Definition afterClaim (c : option Whatsapp) (id : string) (updatedJob : job)
    : option tick_state :=
  match to_phone_e164 updatedJob with
  | None => None
  | Some phone =>
      let normalizedPhone := normalizePhone phone in
      let whatsappId := e164ToWhatsAppId normalizedPhone in
      match c with
      | None =>
          Some (AwaitMarkFailure id updatedJob (Text "WhatsApp client not initialized"))
      | Some _ => Some (AwaitSend id updatedJob whatsappId)
      end
  end.

(** The [catch] block up to its awaited update: the first thing it does
    is read [sendError.message], which throws a [TypeError] on [null]
    and [undefined]; that error leaves the block for the outer [catch]
    and the invocation ends ([None]). *)
Definition catchSend (sendError : thrown) (id : string) (updatedJob : job)
    : option tick_state :=
  match sendError with
  | Nullish => None
  | Value message => Some (AwaitMarkFailure id updatedJob message)
  end.

(** The row written by the [catch] block of a failed send. *)
Definition failureUpdate (updatedJob : job) (message : js_message) (j : job) : job :=
  let newAttempts := orElse (attempts updatedJob) 1 in
  let isMaxAttemptsReached := MAX_ATTEMPTS <=? newAttempts in
  let newStatus := if isMaxAttemptsReached then failed else queued in
  writeLastError message (withStatus newStatus j).

(** One awaited call returns with [a] on the store [db], and the
    invocation runs to its next awaited call ([Some]) or to its end
    ([None]).  An answer that is not for the awaited call ([fits]) is
    not delivered. *)
Definition resume (c : option Whatsapp) (a : answer) (k : tick_state) (db : store)
    : option tick_state * store :=
  match k, a with
  | AwaitQuery, FromStore r =>
      match r with
      | Err _ => (None, db)
      | Ok =>
          match selectOldestQueued (outbox_jobs db) with
          | None => (None, db)
          | Some (id, job) => (Some (AwaitClaim id job), db)
          end
      end
  | AwaitClaim id job, FromStore r =>
      let currentAttempts := orElse (attempts job) 0 + 1 in
      match r with
      | Err _ => (None, db)
      | Ok =>
          match claimUpdate id currentAttempts (outbox_jobs db) with
          | (_, None) => (None, db)
          | (jobs, Some updatedJob) => (afterClaim c id updatedJob, withJobs jobs db)
          end
      end
  | AwaitSend id updatedJob whatsappId, FromSend r =>
      match r with
      | Sent => (Some (AwaitMarkSent id updatedJob), db)
      | Rejected sendError => (catchSend sendError id updatedJob, db)
      end
  | AwaitMarkSent id updatedJob, FromStore r =>
      (AwaitMessageSent <$> truthy (message_id updatedJob),
       withJobs (applyIfOk r (updateById (withStatus sent) id) (outbox_jobs db)) db)
  | AwaitMessageSent mid, FromStore r =>
      (None, withMessages (applyIfOk r (updateById (λ _, "sent") mid) (messages db)) db)
  | AwaitMarkFailure id updatedJob message, FromStore r =>
      let newAttempts := orElse (attempts updatedJob) 1 in
      let isMaxAttemptsReached := MAX_ATTEMPTS <=? newAttempts in
      (if isMaxAttemptsReached
       then AwaitMessageFailed <$> truthy (message_id updatedJob) else None,
       withJobs (applyIfOk r (updateById (failureUpdate updatedJob message) id)
                           (outbox_jobs db)) db)
  | AwaitMessageFailed mid, FromStore r =>
      (None, withMessages (applyIfOk r (updateById (λ _, "failed") mid) (messages db)) db)
  | _, _ => (Some k, db)
  end.

(** ** The tick run alone *)

(** The replies to the awaited calls of one invocation. *)
Record outcomes := mkOutcomes {
  queryReply : reply;
  claimReply : reply;
  sendReply : send_reply;
  jobUpdateReply : reply;
  messageUpdateReply : reply;
}.

(** The [try] block of the send: [sendText], then the updates to
    [sent]; an exception takes the [catch] block with its updates, a
    [null] or [undefined] exception leaves it before any update.
    The result is the store and the calls of [sendText] made, each
    with its address and body. *)
Definition sendAndRecord (w : outcomes) (c : option Whatsapp) (id : string)
    (updatedJob : job) (whatsappId : string) (db : store)
    : store * list (string * string) :=
  let outcome :=
    match c with
    | None => Rejected (Value (Text "WhatsApp client not initialized"))
    | Some _ => sendReply w
    end in
  let calls :=
    match c with
    | None => []
    | Some _ => [(whatsappId, body updatedJob)]
    end in
  match outcome with
  | Sent =>
      let db1 :=
        withJobs (applyIfOk (jobUpdateReply w) (updateById (withStatus sent) id)
                            (outbox_jobs db)) db in
      match truthy (message_id updatedJob) with
      | Some mid =>
          (withMessages (applyIfOk (messageUpdateReply w) (updateById (λ _, "sent") mid)
                                   (messages db1)) db1, calls)
      | None => (db1, calls)
      end
  | Rejected Nullish => (db, calls)
  | Rejected (Value message) =>
      let newAttempts := orElse (attempts updatedJob) 1 in
      let isMaxAttemptsReached := MAX_ATTEMPTS <=? newAttempts in
      let db1 :=
        withJobs (applyIfOk (jobUpdateReply w)
                            (updateById (failureUpdate updatedJob message) id)
                            (outbox_jobs db)) db in
      match (if isMaxAttemptsReached then truthy (message_id updatedJob) else None) with
      | Some mid =>
          (withMessages (applyIfOk (messageUpdateReply w) (updateById (λ _, "failed") mid)
                                   (messages db1)) db1, calls)
      | None => (db1, calls)
      end
  end.

(** The outer [try] block of [processOutboundJob]. *)
Definition tickBody (w : outcomes) (c : option Whatsapp) (db : store)
    : store * list (string * string) :=
  match queryReply w with
  | Err _ => (db, [])
  | Ok =>
      match selectOldestQueued (outbox_jobs db) with
      | None => (db, [])
      | Some (id, job) =>
          let currentAttempts := orElse (attempts job) 0 + 1 in
          match claimReply w with
          | Err _ => (db, [])
          | Ok =>
              match claimUpdate id currentAttempts (outbox_jobs db) with
              | (_, None) => (db, [])
              | (jobs, Some updatedJob) =>
                  let db1 := withJobs jobs db in
                  match to_phone_e164 updatedJob with
                  | None => (db1, [])
                  | Some phone =>
                      let normalizedPhone := normalizePhone phone in
                      let whatsappId := e164ToWhatsAppId normalizedPhone in
                      sendAndRecord w c id updatedJob whatsappId db1
                  end
              end
          end
      end
  end.

(** What one call of [processOutboundJob] leaves behind. *)
Record tick_result := mkResult {
  worker_after : worker;
  store_after : store;
  sends : list (string * string);
}.

(** [processOutboundJob], run with no other activity on the store:
    the guard, the body, and the flag reset of [finally]. *)
Definition processOutboundJob (w : outcomes) (p : worker) (db : store) : tick_result :=
  if isProcessingJob p then mkResult p db []
  else
    let '(db', calls) := tickBody w (client p) db in
    mkResult (mkWorker (client p) false) db' calls.



(** ** Several workers on one store *)

(** A worker process: its module variables and the invocations of
    [processOutboundJob] that are suspended in it. *)
Record proc := mkProc {
  vars : worker;
  inflight : list tick_state;
}.

Record system := mkSystem {
  procs : list proc;
  db : store;
}.

(** The interval timer calls [processOutboundJob]: a set flag returns
    at once, otherwise the flag is set and the query is awaited. *)
Definition invoke (p : proc) : proc :=
  if isProcessingJob (vars p) then p
  else mkProc (mkWorker (client (vars p)) true) (inflight p ++ [AwaitQuery]).

(** The invocation at index [i] goes on to [k'], or ends and resets
    the flag in [finally]. *)
Definition settle (p : proc) (i : nat) (k' : option tick_state) : proc :=
  match k' with
  | Some k => mkProc (vars p) (<[i := k]> (inflight p))
  | None => mkProc (mkWorker (client (vars p)) false) (delete i (inflight p))
  end.

(** One atomic step: a timer fires in some process, an awaited call of
    some invocation returns, or a new queued job is put in the table
    from outside. *)
Inductive step : system → system → Prop :=
| step_timer s n p :
    procs s !! n = Some p →
    step s (mkSystem (<[n := invoke p]> (procs s)) (db s))
| step_resume s n p i k a :
    procs s !! n = Some p →
    inflight p !! i = Some k →
    fits k a = true →
    step s (mkSystem (<[n := settle p i (resume (client (vars p)) a k (db s)).1]> (procs s))
                     (resume (client (vars p)) a k (db s)).2)
| step_enqueue s id j :
    outbox_jobs (db s) !! id = None →
    status j = queued →
    step s (mkSystem (procs s) (withJobs (<[id := j]> (outbox_jobs (db s))) (db s))).

Definition idle (p : proc) : Prop :=
  isProcessingJob (vars p) = false ∧ inflight p = [].

(** The states a set of workers can be in: started with no invocation
    running, then any number of steps. *)
Definition reachable (s : system) : Prop :=
  ∃ s0, Forall idle (procs s0) ∧ rtc step s0 s.

(** The job an invocation has claimed and not yet written back. *)
Definition owned (k : tick_state) : option string :=
  match k with
  | AwaitSend id _ _ | AwaitMarkSent id _ | AwaitMarkFailure id _ _ => Some id
  | AwaitQuery | AwaitClaim _ _ | AwaitMessageSent _ | AwaitMessageFailed _ => None
  end.

(** The number of invocations, over all processes, that own [id]. *)
Definition ownersIn (id : string) (ks : list tick_state) : nat :=
  length (List.filter (λ k, bool_decide (owned k = Some id)) ks).

Definition owners (id : string) (s : system) : nat :=
  sum_list_with (λ p, ownersIn id (inflight p)) (procs s).

(** Whether an invocation, if there is one, owns [id]. *)
Definition ownsOpt (id : string) (o : option string) : nat :=
  if bool_decide (o = Some id) then 1%nat else 0%nat.

(** A process runs no invocation and its flag is down, or it runs one
    and its flag is up. *)
Definition singleFlight (p : proc) : Prop :=
  (isProcessingJob (vars p) = false ∧ inflight p = [])
  ∨ (isProcessingJob (vars p) = true ∧ ∃ k, inflight p = [k]).

(** Every job that is owned is owned once and is [processing]. *)
Definition exclusive (s : system) : Prop :=
  ∀ id, (owners id s ≤ 1)%nat
        ∧ (owners id s = 1%nat →
           ∃ j, outbox_jobs (db s) !! id = Some j ∧ status j = processing).

(** The invocations that are waiting for [sendText]. *)
Definition isSending (k : tick_state) : bool :=
  match k with
  | AwaitSend _ _ _ => true
  | _ => false
  end.

(** A step named by what happens, so that a schedule can be run: the
    timer of process [n], the return of the call awaited by invocation
    [i] of process [n], a new job. *)
Inductive action :=
| Timer (n : nat)
| Return (n i : nat) (a : answer)
| Enqueue (id : string) (j : job).

Definition exec (a : action) (s : system) : option system :=
  match a with
  | Timer n =>
      p ← procs s !! n;
      Some (mkSystem (<[n := invoke p]> (procs s)) (db s))
  | Return n i a =>
      p ← procs s !! n;
      k ← inflight p !! i;
      if fits k a
      then Some (mkSystem (<[n := settle p i (resume (client (vars p)) a k (db s)).1]>
                             (procs s))
                          (resume (client (vars p)) a k (db s)).2)
      else None
  | Enqueue id j =>
      match outbox_jobs (db s) !! id with
      | None =>
          if bool_decide (status j = queued)
          then Some (mkSystem (procs s) (withJobs (<[id := j]> (outbox_jobs (db s))) (db s)))
          else None
      | Some _ => None
      end
  end.

Fixpoint run (schedule : list action) (s : system) : option system :=
  match schedule with
  | [] => Some s
  | a :: rest => s' ← exec a s; run rest s'
  end.

End Tick.


(* ===================================================================== *)
(** * Observing a profile directory                                       *)
(* ===================================================================== *)

(** The files below a node that can be reached by reading directories,
    each with its path from the node, its bytes and the way
    [unlinkSync] answers for it. *)
Fixpoint filesOf (n : node) : list (list string * string * access) :=
  match n with
  | File c a => [([], c, a)]
  | Dir entries =>
      flat_map (λ e, match e.2 with
                     | Some d => List.map (λ f, (e.1 :: f.1.1, f.1.2, f.2)) (filesOf d)
                     | None => []
                     end) entries
  | Unreadable => []
  end.

(** The paths of the directories below a node, the node itself first. *)
Fixpoint dirsOf (n : node) : list (list string) :=
  match n with
  | File _ _ => []
  | Dir entries =>
      [] :: flat_map (λ e, match e.2 with
                           | Some d => List.map (cons e.1) (dirsOf d)
                           | None => []
                           end) entries
  | Unreadable => [[]]
  end.

(** The paths of the entries below a node on which [statSync] throws. *)
Fixpoint linksOf (n : node) : list (list string) :=
  match n with
  | File _ _ | Unreadable => []
  | Dir entries =>
      flat_map (λ e, match e.2 with
                     | Some d => List.map (cons e.1) (linksOf d)
                     | None => [[e.1]]
                     end) entries
  end.



(** Whether [cleanLockFilesInDir], called on [n] with [depth], finds
    nothing that it can unlink. *)
Fixpoint settled (depth : nat) (n : node) : bool :=
  match n with
  | File _ _ | Unreadable => true
  | Dir entries =>
      (3 <? depth)%nat
      || forallb (λ e, match e.2 with
                       | None => true
                       | Some d =>
                           match d with
                           | Dir _ | Unreadable => settled (S depth) d
                           | File _ a => negb (isLockFile e.1 && forceUnlink a)
                           end
                       end) entries
  end.

(** Whether the file at [path] below a directory is one that
    [cleanLockFilesInDir], called on that directory with [depth], passes
    to [unlinkSync]: every directory on the way is visited with a depth
    of at most 3, and the file has a lock name. *)
Fixpoint unlinkedAt (depth : nat) (path : list string) : bool :=
  match path with
  | [] => false
  | name :: rest =>
      negb (3 <? depth)%nat
      && match rest with
         | [] => isLockFile name
         | _ :: _ => unlinkedAt (S depth) rest
         end
  end.

(** The last name on a path: the name of the file it leads to. *)
Definition fileName (path : list string) : string := List.last path EmptyString.

(** Whether the profile cleaning of [startWhatsAppClient] keeps the
    top-level entry [file]. *)
Definition keptAtTop (file : string) : bool :=
  negb (isBrowserProfile file && negb (isSessionToken file)).


(* ===================================================================== *)
(** * Observing an acquisition                                            *)
(* ===================================================================== *)



(* ===================================================================== *)
(** * Conditions on the job table                                         *)
(* ===================================================================== *)

(** Every queued row has attempts left: its count is null, or it is not
    negative and below the ceiling. *)
Definition underCeiling (MAX_ATTEMPTS : Z) (jobs : gmap string job) : Prop :=
  ∀ id j, jobs !! id = Some j → status j = queued →
          ∀ a, attempts j = Some a → 0 ≤ a < MAX_ATTEMPTS.

(** No queued row is older than [j]. *)
Definition oldestQueued (j : job) (jobs : gmap string job) : Prop :=
  status j = queued
  ∧ ∀ id' j', jobs !! id' = Some j' → status j' = queued →
              created_at j ≤ created_at j'.

(** The suspended invocations of each process in the state a schedule
    leads to. *)
Definition pending (s : option system) : option (list (list tick_state)) :=
  (λ s', inflight <$> procs s') <$> s.

(** Status, attempts and last error of the row [id] of a store. *)
Definition rowOfStore (id : string) (db : store)
    : option (job_status * option Z * option string) :=
  j ← outbox_jobs db !! id; Some (status j, attempts j, last_error j).

(* ===================================================================== *)
(** * One invocation followed to its end                                  *)
(* ===================================================================== *)




(* ===================================================================== *)
(** * The inbound relay                                                   *)
(* ===================================================================== *)

(** The [id] of an inbound message: absent, a string, or an object with
    its own [id] field. *)
Inductive message_key :=
| KeyMissing
| KeyString (s : string)
| KeyObject (inner : option string).

(** The fields of an inbound message the handler reads. *)
Record wa_message := mkMessage {
  msg_from : option string;
  msg_type : string;
  msg_body : option string;
  msg_id : message_key;
}.

(** The POST to the dashboard webhook: where it goes, the secret in its
    [x-webhook-secret] header, and its JSON body. *)
Record webhook_post := mkPost {
  post_url : string;
  post_secret : string;
  from_phone_e164 : string;
  post_body : string;
  wa_message_id : message_key;
  post_timestamp : string;
}.

(** [message.id?.id || message.id] *)
Definition waMessageId (key : message_key) : message_key :=
  match key with
  | KeyObject inner =>
      match truthy inner with
      | Some s => KeyString s
      | None => key
      end
  | KeyMissing | KeyString _ => key
  end.

Section Inbound.

(** [DASHBOARD_WEBHOOK_URL] and [WHATSAPP_WEBHOOK_SECRET]. *)
Variables DASHBOARD_WEBHOOK_URL WHATSAPP_WEBHOOK_SECRET : string.

(** The handler given to [client.onMessage], at the time [timestamp]:
    the POST it makes, if any.  A group message, a message that is no
    chat text and a message with no body are dropped; a missing [from]
    ends in the [TypeError] of [extractPhoneFromWhatsAppId], which the
    handler catches. *)
Definition onMessage (timestamp : string) (message : wa_message) : option webhook_post :=
  if match truthy (msg_from message) with
     | Some sender => includes "@g.us" sender
     | None => false
     end
  then None
  else if negb (String.eqb (msg_type message) "chat") then None
  else
    match truthy (msg_body message) with
    | None => None
    | Some messageBody =>
        match msg_from message with
        | None => None
        | Some sender =>
            let rawPhone := extractPhoneFromWhatsAppId sender in
            let senderPhone := normalizePhone rawPhone in
            let waMessageId := waMessageId (msg_id message) in
            Some (mkPost DASHBOARD_WEBHOOK_URL WHATSAPP_WEBHOOK_SECRET
                         senderPhone messageBody waMessageId timestamp)
        end
    end.

End Inbound.

(* ===================================================================== *)
(** * Start-up                                                            *)
(* ===================================================================== *)

(** The process after [main]: polling with its module variables, or
    ended with an exit code. *)
Inductive process :=
| Running (w : worker) (profile : option node)
| Exited (code : Z).

(** [main] and the [catch] on it: the acquisition, then the polling
    loop; a fatal acquisition ends the process with code 1. *)
Definition main (create : Z → option node → create_result * option node)
    (profile : option node) : process :=
  match startWhatsAppClient create profile with
  | (Ready c, profile', _) => Running (mkWorker (Some c) false) profile'
  | (Fatal _, _, _) => Exited 1
  end.

(* ===================================================================== *)
(** * The QR code server                                                  *)
(* ===================================================================== *)

Record http_response := mkResponse {
  statusCode : Z;
  contentType : string;
  contentLength : option nat;
  content : string;
}.

(** The request handler of [startQRCodeServer]: [html] is the page it
    serves, [qrFile] the bytes of [wpp-session/qr-code.png] when the
    file exists.  Of the headers, the content type and length are
    kept. *)
Definition handleRequest (html : string) (qrFile : option string) (url : string)
    : http_response :=
  if String.eqb url "/qr-code.png" || String.eqb url "/qr" then
    match qrFile with
    | Some imageBuffer =>
        mkResponse 200 "image/png" (Some (String.length imageBuffer)) imageBuffer
    | None =>
        mkResponse 404 "text/plain" None
                   "QR code not found. Waiting for QR code generation..."
    end
  else if String.eqb url "/" || String.eqb url "/index.html" then
    mkResponse 200 "text/html; charset=utf-8" None html
  else
    mkResponse 404 "text/plain" None "Not found".

(* ===================================================================== *)
(** * Sample inputs                                                       *)
(* ===================================================================== *)

Module Samples.

(** A profile directory with a stale lock file and a file whose name
    holds the session token pattern [.data]. *)
Definition lockAndToken : node :=
  Dir [("SingletonLock", Some (File "railway-7f3a-42" Removable));
       ("lock.data", Some (File "token-bytes" Removable))].

(** A profile directory whose token file lies in the browser profile
    sub-directory [Default]. *)
Definition tokenInDefault : node :=
  Dir [("SingletonLock", Some (File "railway-7f3a-42" Removable));
       ("Default", Some (Dir [("wppconnect.json", Some (File "token-bytes" Removable))]))].

(** A profile directory with a lock file and a token file that no lock
    test matches. *)
Definition lockAndPlainToken : node :=
  Dir [("SingletonLock", Some (File "railway-7f3a-42" Removable));
       ("wppconnect.json", Some (File "token-bytes" Removable));
       ("Default", Some (Dir [("LOCK", Some (File "MANIFEST-000001" Removable));
                              ("Cookies", Some (File "c" Removable))]))].

(** A profile directory as Chromium leaves it: the lock is a symbolic
    link to a missing target, next to a token file. *)
Definition danglingLock : node :=
  Dir [("SingletonLock", None);
       ("wppconnect.json", Some (File "token-bytes" Removable))].

(** A browser profile sub-directory with a file that cannot be
    unlinked between two that can, a lock that needs a change of mode,
    a top-level link to a missing target, and a crash directory that
    cannot be read. *)
Definition stuckProfile : node :=
  Dir [("SingletonCookie", None);
       ("Lockfile", Some (File "pid" AfterChmod));
       ("Default", Some (Dir [("Cookies", Some (File "c" Removable));
                              ("History", Some (File "h" Locked));
                              ("Cache", Some (File "x" Removable))]));
       ("Crashpad", Some Unreadable);
       ("wppconnect.json", Some (File "token-bytes" Removable))].

Definition theClient : Whatsapp := WhatsappClient "wingshack-session".

(** [create] is refused once for a reason other than a busy profile,
    and succeeds on the next call. *)
Definition refusedOnce (attempt : Z) (profile : option node)
    : create_result * option node :=
  if attempt =? 1 then (CreateFailed "net::ERR_CONNECTION_REFUSED", profile)
  else (Created theClient, profile).

(** [create] finds the profile busy on every call. *)
Definition alwaysBusy (attempt : Z) (profile : option node)
    : create_result * option node :=
  (CreateFailed "The profile appears to be in use by another process", profile).


Definition job1 : job :=
  mkJob (Some "+15551234567") "hi" queued (Some 0) None 100 (Some "msg-1").

Definition db1 : store :=
  mkStore {[ "job-1" := job1 ]} {[ "msg-1" := "queued" ]}.

Definition allOk : outcomes := mkOutcomes Ok Ok Sent Ok Ok.

Definition sendThrows : outcomes :=
  mkOutcomes Ok Ok (Rejected (Value (Text "Evaluation failed: timeout"))) Ok Ok.


(** [sendText] rejects with [null]. *)
Definition sendThrowsNull : outcomes :=
  mkOutcomes Ok Ok (Rejected Nullish) Ok Ok.

Definition readyWorker : worker := mkWorker (Some theClient) false.


(** A job on its second attempt, for a ceiling of two attempts. *)
Definition job2 : job :=
  mkJob (Some "447900000001@c.us") "order ready" queued (Some 1) None 200 None.

Definition db2 : store := mkStore {[ "job-2" := job2 ]} ∅.

(** A job on its second attempt that is linked to a message. *)
Definition job5 : job :=
  mkJob (Some "+447900000002") "table ready" queued (Some 1) None 500 (Some "msg-5").

Definition db5 : store :=
  mkStore {[ "job-5" := job5 ]} {[ "msg-5" := "queued" ]}.

(** Two workers with a session each, started on the store [db1]. *)
Definition twoWorkers : system :=
  mkSystem [mkProc readyWorker []; mkProc readyWorker []] db1.

(** One full tick of process [n] whose send throws. *)
Definition failingTick (n : nat) : list action :=
  [Timer n; Return n 0 Ok; Return n 0 Ok;
   Return n 0 (Rejected (Value (Text "timeout"))); Return n 0 Ok].

(** The first worker selects the queued job; before its claim reaches
    the store, the second worker runs two whole ticks on that job, the
    send failing each time. *)
Definition staleSchedule : list action :=
  [Timer 0; Return 0 0 Ok] ++ failingTick 1 ++ failingTick 1.

(** Status and attempts of the row [id] in the state a schedule
    leads to. *)
Definition rowOf (id : string) (s : option system) : option (job_status * option Z) :=
  s' ← s; j ← outbox_jobs (db s') !! id; Some (status j, attempts j).

(** [job1] once it has been sent on its first attempt. *)
Definition job1Sent : job :=
  mkJob (Some "+15551234567") "hi" sent (Some 1) None 100 (Some "msg-1").

(** A full tick of process [n] in which every call succeeds. *)
Definition happyTick (n : nat) : list action :=
  [Timer n; Return n 0 Ok; Return n 0 Ok; Return n 0 Sent; Return n 0 Ok; Return n 0 Ok].

(** The two workers after the first one has sent the job. *)
Definition afterHappyTick : system :=
  default twoWorkers (run 5 (happyTick 0) twoWorkers).

(** ... and after a new job has come in and the second worker has
    failed on it. *)
Definition laterSchedule : list action :=
  [Enqueue "job-2" job2] ++ failingTick 1 ++ [Timer 0; Return 0 0 Ok].

Definition afterLater : system :=
  default twoWorkers (run 5 laterSchedule afterHappyTick).

(** Both workers select the queued job and send their claims; the
    claim of the second worker arrives first. *)
Definition raceSchedule : list action :=
  [Timer 0; Timer 1; Return 0 0 Ok; Return 1 0 Ok; Return 1 0 Ok; Return 0 0 Ok].

(** Both workers select the queued job: each has its claim on the way
    to the store. *)
Definition bothSelect : list action :=
  [Timer 0; Timer 1; Return 0 0 Ok; Return 1 0 Ok].

Definition bothClaiming : system :=
  default twoWorkers (run 5 bothSelect twoWorkers).

(** ... the claim of the second worker arrives, its send fails and it
    puts the job back in the queue; only then does the claim of the
    first worker arrive. *)
Definition requeueSchedule : list action :=
  bothSelect
  ++ [Return 1 0 Ok; Return 1 0 (Rejected (Value (Text "timeout"))); Return 1 0 Ok;
      Return 0 0 Ok].

(** A timer that fires twice while the first tick is still awaiting
    its query. *)
Definition doubleTimer : list action := [Timer 0; Timer 0].

Definition afterDoubleTimer : system :=
  default twoWorkers (run 5 doubleTimer twoWorkers).

Definition busyProc : proc := mkProc (mkWorker (Some theClient) true) [AwaitQuery].

(** A queued job with no phone. *)
Definition job3 : job := mkJob None "hello" queued (Some 0) None 300 None.

Definition db3 : store := mkStore {[ "job-3" := job3 ]} ∅.

(** The job [job1] with two younger queued jobs. *)
Definition db4 : store :=
  mkStore (<[ "job-1" := job1 ]> (<[ "job-2" := job2 ]> {[ "job-3" := job3 ]}))
          {[ "msg-1" := "queued" ]}.

(** The race of [raceSchedule], and then the timer of the loser. *)
Definition afterRace : system :=
  default twoWorkers (run 5 (raceSchedule ++ [Timer 0]) twoWorkers).

(** The winner of that race, waiting for [sendText]. *)
Definition sendingJob1 : tick_state :=
  AwaitSend "job-1"
    (mkJob (Some "+15551234567") "hi" processing (Some 1) None 100 (Some "msg-1"))
    "15551234567@c.us".

(** One worker on the store [db3]; its first tick claims the job with
    no phone and abandons it. *)
Definition oneWorker : system := mkSystem [mkProc readyWorker []] db3.

Definition abandonSchedule : list action := [Timer 0; Return 0 0 Ok; Return 0 0 Ok].

Definition afterAbandon : system := default oneWorker (run 5 abandonSchedule oneWorker).

Definition job3Claimed : job := mkJob None "hello" processing (Some 1) None 300 None.

(** ... and after two more ticks of that worker, which find no queued
    job. *)
Definition emptyTicks : list action :=
  [Timer 0; Return 0 0 Ok; Timer 0; Return 0 0 Ok].

Definition afterAbandonLater : system :=
  default oneWorker (run 5 emptyTicks afterAbandon).

(** An inbound chat message from an individual sender. *)
Definition chatMessage : wa_message :=
  mkMessage (Some "447900000001@c.us") "chat" (Some "Is my order ready?")
            (KeyObject (Some "3EB0C767D26A")).

(** A message posted in a group. *)
Definition groupMessage : wa_message :=
  mkMessage (Some "120363123456789012@g.us") "chat" (Some "hello all")
            (KeyString "3EB0A1").

End Samples.
(* ===================================================================== *)
(** * Properties of the string primitives                                 *)
(* ===================================================================== *)

Module JsStringFacts.

Lemma trimStart_headOk s : headOk (trimStart s).
Proof.
  induction s as [|c r IH]; simpl; [done|].
  destruct (isWhiteSpace c) eqn:E; [done|]. by simpl.
Qed.

Lemma headOk_trimStart s : headOk s → trimStart s = s.
Proof. destruct s as [|c r]; simpl; [done|]. by intros ->. Qed.

Lemma trimEnd_headOk s : headOk s → headOk (trimEnd s).
Proof.
  destruct s as [|c r]; simpl; [done|]. intros E.
  destruct (trimEnd r); rewrite ?E; by simpl.
Qed.

Lemma trimEnd_idem s : trimEnd (trimEnd s) = trimEnd s.
Proof.
  induction s as [|c r IH]; simpl; [done|].
  destruct (trimEnd r) as [|d r'] eqn:E.
  - destruct (isWhiteSpace c) eqn:W; simpl; [done|]. by rewrite W.
  - change (trimEnd (String c (String d r'))) with
      (match trimEnd (String d r') with
       | EmptyString => if isWhiteSpace c then EmptyString else String c EmptyString
       | r0 => String c r0
       end).
    by rewrite IH.
Qed.

Lemma trim_headOk s : headOk (trim s).
Proof. apply trimEnd_headOk, trimStart_headOk. Qed.

Lemma trimStart_trim s : trimStart (trim s) = trim s.
Proof. apply headOk_trimStart, trim_headOk. Qed.

Lemma trimEnd_trim s : trimEnd (trim s) = trim s.
Proof. apply trimEnd_idem. Qed.

Lemma trim_idem s : trim (trim s) = trim s.
Proof. unfold trim at 1. by rewrite trimStart_trim, trimEnd_trim. Qed.

(** A plus sign in front of a trimmed string leaves it trimmed. *)
Lemma trim_plus s : trim ("+" +:+ trim s) = "+" +:+ trim s.
Proof.
  unfold trim at 1.
  change (trimStart ("+" +:+ trim s)) with ("+" +:+ trim s).
  change (trimEnd ("+" +:+ trim s)) with
    (match trimEnd (trim s) with
     | EmptyString => "+"
     | r0 => String "+" r0
     end).
  rewrite trimEnd_trim. by destruct (trim s).
Qed.

Lemma count_app c a b : count c (a +:+ b) = (count c a + count c b)%nat.
Proof. induction a as [|d r IH]; simpl; [done|]. rewrite IH. lia. Qed.

Lemma count_split0 c s : count c (split0 c s) = O.
Proof.
  induction s as [|d r IH]; simpl; [done|].
  destruct (Ascii.eqb d c) eqn:E; simpl; [done|]. by rewrite E, IH.
Qed.

Lemma split0_absent c s : count c s = O → split0 c s = s.
Proof.
  induction s as [|d r IH]; simpl; [done|].
  destruct (Ascii.eqb d c); [done|]. simpl. intros H. by rewrite IH.
Qed.

Lemma count_trimStart c s :
  isWhiteSpace c = false → count c (trimStart s) = count c s.
Proof.
  intros Hc. induction s as [|d r IH]; simpl; [done|].
  destruct (isWhiteSpace d) eqn:W; simpl; [|done].
  rewrite IH. destruct (Ascii.eqb d c) eqn:E; [|done].
  apply Ascii.eqb_eq in E. congruence.
Qed.

Lemma count_trimEnd c s :
  isWhiteSpace c = false → count c (trimEnd s) = count c s.
Proof.
  intros Hc. induction s as [|d r IH]; simpl; [done|].
  rewrite <- IH. destruct (trimEnd r) as [|e r']; simpl; [|done].
  destruct (isWhiteSpace d) eqn:W; simpl; [|lia].
  destruct (Ascii.eqb d c) eqn:E; [|done].
  apply Ascii.eqb_eq in E. congruence.
Qed.

Lemma count_trim c s : isWhiteSpace c = false → count c (trim s) = count c s.
Proof. intros Hc. unfold trim. by rewrite count_trimEnd, count_trimStart. Qed.

Lemma count_at_stripLeadingPlus s : count "@" (stripLeadingPlus s) = count "@" s.
Proof.
  destruct s as [|c r]; simpl; [done|].
  destruct (Ascii.eqb c "+") eqn:E; [|done].
  apply Ascii.eqb_eq in E. by subst c.
Qed.

Lemma includes_char_count c s : includes (String c EmptyString) s = false ↔ count c s = O.
Proof.
  induction s as [|d r IH]; simpl; [done|].
  rewrite andb_true_r, (Ascii.eqb_sym c d).
  destruct (Ascii.eqb d c); simpl; [split; [done|lia]|done].
Qed.

Lemma startsWith_plus s :
  startsWith "+" s = true → s = "+" +:+ stripLeadingPlus s.
Proof.
  destruct s as [|c r]; [done|]. cbn [startsWith].
  rewrite andb_true_r. intros E. apply Ascii.eqb_eq in E. by subst c.
Qed.

Lemma not_startsWith_plus s :
  startsWith "+" s = false → stripLeadingPlus s = s.
Proof.
  destruct s as [|c r]; [done|]. cbn [startsWith stripLeadingPlus].
  rewrite andb_true_r, Ascii.eqb_sym. by intros ->.
Qed.

End JsStringFacts.

Import JsStringFacts.

(* ===================================================================== *)
(** * Phone numbers: normal form and channel address                      *)
(* ===================================================================== *)

Section PhoneFacts.

Implicit Types x p rest : string.

Lemma at_not_white : isWhiteSpace "@" = false.
Proof. reflexivity. Qed.

Lemma cleaned_no_at x : count "@" (trim (split0 "@" x)) = O.
Proof. by rewrite (count_trim _ _ at_not_white), count_split0. Qed.

Lemma normalizePhone_count_at x : count "@" (normalizePhone x) = O.
Proof.
  unfold normalizePhone. destruct (startsWith _ _).
  - apply cleaned_no_at.
  - rewrite count_app, cleaned_no_at. reflexivity.
Qed.

Lemma normalizePhone_startsWith_plus x : startsWith "+" (normalizePhone x) = true.
Proof.
  unfold normalizePhone. by destruct (startsWith "+" (trim (split0 "@" x))) eqn:E.
Qed.

Lemma normalizePhone_trimmed x : trim (normalizePhone x) = normalizePhone x.
Proof.
  unfold normalizePhone. destruct (startsWith _ _).
  - apply trim_idem.
  - apply trim_plus.
Qed.

Lemma normalizePhone_fixed x :
  count "@" x = O → trim x = x → startsWith "+" x = true → normalizePhone x = x.
Proof.
  intros Hat Htrim Hplus. unfold normalizePhone.
  by rewrite (split0_absent _ _ Hat), Htrim, Hplus.
Qed.

Lemma split0_before_at x rest :
  count "@" x = O → split0 "@" (x +:+ "@" +:+ rest) = x.
Proof.
  induction x as [|c r IH]; simpl; [done|].
  destruct (Ascii.eqb c "@"); [done|]. intros H. f_equal. by apply IH.
Qed.

(** The channel address of a normal form: the cleaned input without
    its plus sign, and the suffix. *)
Lemma channel_address_of_normal_form x :
  e164ToWhatsAppId (normalizePhone x)
  = stripLeadingPlus (trim (split0 "@" x)) +:+ "@c.us".
Proof.
  unfold e164ToWhatsAppId. rewrite normalizePhone_trimmed. unfold normalizePhone.
  by destruct (startsWith "+" (trim (split0 "@" x))) eqn:E;
    [|rewrite (not_startsWith_plus _ E)].
Qed.

(** On an input that holds an at sign the two conversions differ: the
    direct one keeps the at sign and adds a second one. *)
Lemma e164ToWhatsAppId_direct_differs x :
  includes "@" x = true →
  e164ToWhatsAppId (normalizePhone x) ≠ e164ToWhatsAppId x.
Proof.
  intros Hin Heq. apply (f_equal (count "@")) in Heq.
  unfold e164ToWhatsAppId in Heq.
  rewrite !count_app, !count_at_stripLeadingPlus, !(count_trim _ _ at_not_white),
    normalizePhone_count_at in Heq.
  assert (count "@" x = O) as H0 by lia.
  apply includes_char_count in H0. congruence.
Qed.

End PhoneFacts.

(** C10. [normalizePhone] is idempotent, and its result always begins
    with a plus sign and holds no at sign: what follows the first at sign
    is dropped before the plus sign is ensured. *)
Theorem normalizePhone_idempotent (x : string) :
  normalizePhone (normalizePhone x) = normalizePhone x
  ∧ startsWith "+" (normalizePhone x) = true
  ∧ includes "@" (normalizePhone x) = false.
Proof.
  split_and!.
  - apply normalizePhone_fixed.
    + apply normalizePhone_count_at.
    + apply normalizePhone_trimmed.
    + apply normalizePhone_startsWith_plus.
  - apply normalizePhone_startsWith_plus.
  - apply includes_char_count, normalizePhone_count_at.
Qed.

(** C4, as the claim states it, fails on an input that carries the
    channel suffix: the direct conversion of ["447900000001@c.us"] is
    ["447900000001@c.us@c.us"]. *)
Lemma e164ToWhatsAppId_suffix_counterexample :
  e164ToWhatsAppId (normalizePhone "447900000001@c.us")
  ≠ e164ToWhatsAppId "447900000001@c.us".
Proof. vm_compute. discriminate. Qed.

(** C4, amended.  For every input [x] without an at sign, with or
    without a leading plus sign, converting [x] directly gives the
    channel address of its normal form; an input that carries a channel
    suffix after [x] has, through [normalizePhone], the channel address
    of [x]; and ["447900000001@c.us"] normalizes to ["+447900000001"],
    which converts to ["447900000001@c.us"]. *)
Theorem e164ToWhatsAppId_normalizePhone (x rest : string) :
  includes "@" x = false →
  e164ToWhatsAppId (normalizePhone x) = e164ToWhatsAppId x
  ∧ e164ToWhatsAppId (normalizePhone (x +:+ "@" +:+ rest)) = e164ToWhatsAppId x
  ∧ normalizePhone "447900000001@c.us" = "+447900000001"
  ∧ e164ToWhatsAppId (normalizePhone "447900000001@c.us") = "447900000001@c.us".
Proof.
  intros Hat. apply includes_char_count in Hat.
  assert (e164ToWhatsAppId (normalizePhone x) = e164ToWhatsAppId x) as Hx.
  { rewrite channel_address_of_normal_form, (split0_absent _ _ Hat). reflexivity. }
  split_and!; [exact Hx| |reflexivity|reflexivity].
  rewrite <- Hx, !channel_address_of_normal_form.
  by rewrite (split0_before_at _ _ Hat), (split0_absent _ _ Hat).
Qed.

Lemma e164ToWhatsAppId_normalizePhone_witness :
  includes "@" " +447900000001 " = false
  ∧ e164ToWhatsAppId (normalizePhone " +447900000001 ") = "447900000001@c.us"
  ∧ e164ToWhatsAppId (normalizePhone (" +447900000001 " +:+ "@" +:+ "g.us"))
    = e164ToWhatsAppId " +447900000001 ".
Proof.
  split; [reflexivity|].
  destruct (e164ToWhatsAppId_normalizePhone " +447900000001 " "g.us" eq_refl)
    as (H1 & H2 & _).
  split; [rewrite H1; reflexivity | exact H2].
Defined.

(* ===================================================================== *)
(** * The profile directory                                               *)
(* ===================================================================== *)

Section ProfileFacts.

Implicit Types (name : string) (entries : list (string * option node)).

Lemma cleanEntry_file recurse name c a :
  cleanEntry recurse (name, Some (File c a))
  = if isLockFile name && forceUnlink a then [] else [(name, Some (File c a))].
Proof. reflexivity. Qed.

(** A file that lies directly in the cleaned directory and has no lock
    name is kept as it is. *)
Lemma cleanLockFilesInDir_keeps depth entries name c a :
  (name, Some (File c a)) ∈ entries →
  isLockFile name = false →
  ∃ entries', cleanLockFilesInDir depth (Dir entries) = Dir entries'
              ∧ (name, Some (File c a)) ∈ entries'.
Proof.
  intros Hin Hname. simpl. destruct (3 <? depth)%nat; [by eexists|].
  eexists; split; [done|]. apply list_elem_of_In, in_flat_map.
  exists (name, Some (File c a)). split; [by apply list_elem_of_In|].
  rewrite cleanEntry_file, Hname. by left.
Qed.

(** No file with a lock name that can be unlinked is left directly in
    the directory that [cleanupChromiumLockFiles] starts from. *)
Lemma cleanLockFilesInDir_removes entries name c a :
  isLockFile name = true → forceUnlink a = true →
  ∀ entries', cleanLockFilesInDir 0 (Dir entries) = Dir entries' →
              (name, Some (File c a)) ∉ entries'.
Proof.
  intros Hname Ha entries' [= <-] Hin.
  apply list_elem_of_In, in_flat_map in Hin as ([n d] & _ & Hd).
  destruct d as [[c' a'|sub|]|]; cbn in Hd.
  - destruct (isLockFile n && forceUnlink a') eqn:E; [done|].
    destruct Hd as [[= -> -> ->]|[]]. by rewrite Hname, Ha in E.
  - by destruct Hd as [|[]].
  - by destruct Hd as [|[]].
  - by destruct Hd as [|[]].
Qed.

(** The profile cleaning of [startWhatsAppClient] keeps every
    top-level entry whose name holds a session token pattern. *)
Lemma removeBrowserProfile_keeps_tokens entries name (d : option node) :
  (name, d) ∈ entries →
  isSessionToken name = true →
  ∃ entries', removeBrowserProfile (Dir entries) = Dir entries'
              ∧ (name, d) ∈ entries'.
Proof.
  intros Hin Htok. eexists; split; [done|].
  apply list_elem_of_In, in_flat_map. exists (name, d).
  split; [by apply list_elem_of_In|].
  unfold removeEntry. cbn [fst]. rewrite Htok, andb_false_r. by left.
Qed.

Example cleanup_plain_token :
  prepareProfile (Some Samples.lockAndPlainToken)
  = Some (Dir [("wppconnect.json", Some (File "token-bytes" Removable))]).
Proof. vm_compute. reflexivity. Qed.

Example cleanup_token_in_Default :
  prepareProfile (Some Samples.tokenInDefault) = Some (Dir []).
Proof. vm_compute. reflexivity. Qed.

Example cleanup_missing_profile : prepareProfile None = Some (Dir []).
Proof. reflexivity. Qed.

(** A lock that is a symbolic link to a missing target, as Chromium
    writes it, is passed over by both cleanings. *)
Example cleanup_dangling_lock :
  prepareProfile (Some Samples.danglingLock) = Some Samples.danglingLock.
Proof. vm_compute. reflexivity. Qed.

(** A file that cannot be unlinked ends [rmSync] on the browser profile
    directory: what came before it is gone, the rest stays; so does a
    directory that cannot be read; the lock that needs a change of mode
    is removed by the lock cleanup. *)
Example cleanup_stuck_profile :
  prepareProfile (Some Samples.stuckProfile)
  = Some (Dir [("SingletonCookie", None);
               ("Default", Some (Dir [("History", Some (File "h" Locked));
                                      ("Cache", Some (File "x" Removable))]));
               ("Crashpad", Some Unreadable);
               ("wppconnect.json", Some (File "token-bytes" Removable))]).
Proof. vm_compute. reflexivity. Qed.

End ProfileFacts.

(** C7.  The code breaks the claim on a profile directory that holds the
    lock file [SingletonLock] and the file [lock.data]: the name of the
    latter holds the session token pattern [.data], the profile cleaning
    of [startWhatsAppClient] alone keeps it for that reason, and
    [cleanupChromiumLockFiles], which tests lock names only, unlinks it
    together with the lock file. *)
Theorem cleanupChromiumLockFiles_unlinks_token :
  isSessionToken "lock.data" = true
  ∧ removeBrowserProfile Samples.lockAndToken
    = Dir [("lock.data", Some (File "token-bytes" Removable))]
  ∧ cleanupChromiumLockFiles (Some Samples.lockAndToken) = Some (Dir [])
  ∧ prepareProfile (Some Samples.lockAndToken) = Some (Dir []).
Proof. vm_compute. done. Qed.

(* ===================================================================== *)
(** * Session acquisition                                                 *)
(* ===================================================================== *)

Section AcquisitionFacts.

Variable create : Z → option node → create_result * option node.

Lemma attempts_1_to_3 : seqZ 1 maxRetries = [1; 2; 3].
Proof. reflexivity. Qed.

(** The delay before a retry is never under one second. *)
Lemma retry_delay_floor attempt : 1000 ≤ Z.max 1000 (500 * attempt).
Proof. lia. Qed.

(** The first attempt that succeeds ends the acquisition. *)
Lemma startWhatsAppClient_first_try profile c profile1 :
  create 1 (prepareProfile profile) = (Created c, profile1) →
  startWhatsAppClient create profile = (Ready c, profile1, [Wait 1000; Create 1]).
Proof.
  intros H. unfold startWhatsAppClient. rewrite attempts_1_to_3.
  cbn [attemptLoop]. by rewrite H.
Qed.

(** A busy profile on the first attempt is cleaned three times and
    tried again after at least one second. *)
Lemma startWhatsAppClient_busy_retry profile message profile1 :
  create 1 (prepareProfile profile) = (CreateFailed message, profile1) →
  isSingletonLockError message = true →
  startWhatsAppClient create profile
  = attemptLoop create [2; 3] (Some message)
      (cleanupChromiumLockFiles
         (cleanupChromiumLockFiles (cleanupChromiumLockFiles profile1)))
      [Wait 1000; Create 1; Wait 300; Wait 300; Wait 1000].
Proof.
  intros H Hbusy. unfold startWhatsAppClient. rewrite attempts_1_to_3.
  cbn [attemptLoop]. by rewrite H, Hbusy.
Qed.

(** An error of any other kind on the first attempt does not end the
    acquisition either: the loop goes on to the second attempt, with
    no cleaning and no delay of its own. *)
Lemma startWhatsAppClient_other_error_retry profile message profile1 :
  create 1 (prepareProfile profile) = (CreateFailed message, profile1) →
  isSingletonLockError message = false →
  startWhatsAppClient create profile
  = attemptLoop create [2; 3] (Some message) profile1 [Wait 1000; Create 1].
Proof.
  intros H Hother. unfold startWhatsAppClient. rewrite attempts_1_to_3.
  cbn [attemptLoop]. by rewrite H, Hother.
Qed.

(** Whatever the error of the third attempt is, it is fatal. *)
Lemma attemptLoop_last lastError profile trace message profile1 :
  create 3 (prepareProfile profile) = (CreateFailed message, profile1) →
  (attemptLoop create [3] lastError profile trace).1.1 = Fatal message.
Proof.
  intros H. cbn [attemptLoop]. rewrite H.
  by destruct (isSingletonLockError message).
Qed.

(** Every path through the loop ends: with a client, or with the
    message of the error of the third attempt. *)
Lemma startWhatsAppClient_total profile :
  (∃ c, (startWhatsAppClient create profile).1.1 = Ready c)
  ∨ (∃ message, (startWhatsAppClient create profile).1.1 = Fatal message).
Proof.
  unfold startWhatsAppClient. rewrite attempts_1_to_3. cbn [attemptLoop].
  repeat match goal with
    | |- context [create ?a ?p] =>
        destruct (create a p) as [[?|?] ?]; cbn [fst snd]; eauto
    | |- context [isSingletonLockError ?m] =>
        destruct (isSingletonLockError m); cbn [fst snd]; eauto
    end.
Qed.

End AcquisitionFacts.

Example startWhatsAppClient_always_busy :
  startWhatsAppClient Samples.alwaysBusy None
  = (Fatal "The profile appears to be in use by another process", Some (Dir []),
     [Wait 1000; Create 1; Wait 300; Wait 300; Wait 1000;
      Wait 1000; Create 2; Wait 300; Wait 300; Wait 1000;
      Wait 1000; Create 3; Wait 300; Wait 300]).
Proof. vm_compute. reflexivity. Qed.

(** C6.  The code breaks the claim on an acquisition whose first
    [create] is refused for a reason that is no busy profile: the error
    is not thrown, [create] is called a second time, and the acquisition
    ends with the client of that second call. *)
Theorem startWhatsAppClient_retries_other_errors :
  isSingletonLockError "net::ERR_CONNECTION_REFUSED" = false
  ∧ startWhatsAppClient Samples.refusedOnce None
    = (Ready Samples.theClient, Some (Dir []),
       [Wait 1000; Create 1; Wait 1000; Create 2]).
Proof. vm_compute. done. Qed.

(* ===================================================================== *)
(** * The job store                                                       *)
(* ===================================================================== *)

Section StoreFacts.

Implicit Types (jobs : gmap string job) (id : string) (j u : job).

Lemma older_cases a b : older a b = a ∨ older a b = b.
Proof. unfold older. destruct (_ <? _); auto. Qed.

Lemma foldl_older_elem r rest : foldl older r rest ∈ r :: rest.
Proof.
  revert r. induction rest as [|x rest IH]; intros r; simpl.
  - apply elem_of_cons; by left.
  - pose proof (IH (older r x)) as H. apply elem_of_cons in H as [H|H].
    + rewrite H. destruct (older_cases r x) as [-> | ->].
      * apply elem_of_cons; by left.
      * apply elem_of_cons; right. apply elem_of_cons; by left.
    + apply elem_of_cons; right. apply elem_of_cons; by right.
Qed.

Lemma older_le a b :
  created_at (older a b).2 ≤ created_at a.2
  ∧ created_at (older a b).2 ≤ created_at b.2.
Proof. unfold older. destruct (created_at b.2 <? created_at a.2) eqn:E; lia. Qed.

Lemma foldl_older_le_first r rest :
  created_at (foldl older r rest).2 ≤ created_at r.2.
Proof.
  revert r. induction rest as [|y rest IH]; intros r; simpl; [lia|].
  etrans; [apply IH | apply older_le].
Qed.

Lemma foldl_older_least r rest x :
  x ∈ r :: rest → created_at (foldl older r rest).2 ≤ created_at x.2.
Proof.
  revert r. induction rest as [|y rest IH]; intros r Hx.
  - apply list_elem_of_singleton in Hx. subst x. reflexivity.
  - apply elem_of_cons in Hx as [->|Hx]; [apply foldl_older_le_first|].
    simpl. apply elem_of_cons in Hx as [->|Hx].
    + etrans; [apply foldl_older_le_first | apply older_le].
    + apply IH, elem_of_cons. by right.
Qed.

Lemma oldest_elem rows r : oldest rows = Some r → r ∈ rows.
Proof.
  destruct rows as [|x rest]; [done|]. intros [= <-]. apply foldl_older_elem.
Qed.

Lemma elem_of_queued_rows jobs id j :
  (id, j) ∈ List.filter (λ r, bool_decide (status r.2 = queued)) (map_to_list jobs)
  ↔ jobs !! id = Some j ∧ status j = queued.
Proof.
  rewrite list_elem_of_In, filter_In, <- list_elem_of_In, elem_of_map_to_list.
  simpl. by rewrite bool_decide_eq_true.
Qed.

(** The query returns a row of the table that is queued. *)
Lemma selectOldestQueued_Some jobs id j :
  selectOldestQueued jobs = Some (id, j) →
  jobs !! id = Some j ∧ status j = queued.
Proof. intros H. by apply elem_of_queued_rows, oldest_elem. Qed.

(** No queued row is older than the row returned. *)
Lemma selectOldestQueued_least jobs id j id' j' :
  selectOldestQueued jobs = Some (id, j) →
  jobs !! id' = Some j' → status j' = queued →
  created_at j ≤ created_at j'.
Proof.
  unfold selectOldestQueued, oldest. intros H Hj' Hq.
  assert ((id', j') ∈ List.filter (λ r, bool_decide (status r.2 = queued))
                                   (map_to_list jobs)) as Hin
    by by apply elem_of_queued_rows.
  destruct (List.filter _ _) as [|r rest]; [done|]. injection H as H.
  apply (foldl_older_least r rest) in Hin. by rewrite H in Hin.
Qed.

(** The query returns nothing only when no row is queued. *)
Lemma selectOldestQueued_None jobs :
  selectOldestQueued jobs = None ↔ ∀ id j, jobs !! id = Some j → status j ≠ queued.
Proof.
  unfold selectOldestQueued, oldest. split.
  - intros H id j Hj Hq.
    assert ((id, j) ∈ List.filter (λ r, bool_decide (status r.2 = queued))
                                   (map_to_list jobs)) as Hin
      by by apply elem_of_queued_rows.
    destruct (List.filter _ _); [by apply elem_of_nil in Hin | done].
  - intros H. destruct (List.filter _ _) as [|[id j] rest] eqn:E; [done|].
    assert ((id, j) ∈ List.filter (λ r, bool_decide (status r.2 = queued))
                                   (map_to_list jobs)) as Hin
      by (rewrite E; apply elem_of_cons; by left).
    apply elem_of_queued_rows in Hin as [Hj Hq]. by destruct (H id j Hj).
Qed.

(** The claim rewrites a queued row: status and attempts in one update. *)
Lemma claimUpdate_queued id a jobs j :
  jobs !! id = Some j → status j = queued →
  claimUpdate id a jobs
  = (<[id := withAttempts a (withStatus processing j)]> jobs,
     Some (withAttempts a (withStatus processing j))).
Proof.
  intros Hj Hq. unfold claimUpdate. rewrite Hj. by rewrite bool_decide_eq_true_2.
Qed.

(** A row that is absent or not queued matches no row: nothing is
    written and nothing is returned. *)
Lemma claimUpdate_not_queued id a jobs :
  (∀ j, jobs !! id = Some j → status j ≠ queued) →
  claimUpdate id a jobs = (jobs, None).
Proof.
  intros H. unfold claimUpdate. destruct (jobs !! id) as [j|] eqn:Hj; [|done].
  by rewrite bool_decide_eq_false_2 by by apply H.
Qed.

(** The claim returns a row only for a row that was queued. *)
Lemma claimUpdate_Some_inv id a jobs jobs' u :
  claimUpdate id a jobs = (jobs', Some u) →
  ∃ j, jobs !! id = Some j ∧ status j = queued
       ∧ u = withAttempts a (withStatus processing j)
       ∧ jobs' = <[id := u]> jobs.
Proof.
  unfold claimUpdate. destruct (jobs !! id) as [j|] eqn:Hj; [|done].
  case_bool_decide as Hq; [|done]. intros [= <- <-]. by exists j.
Qed.

Lemma claimUpdate_None_inv id a jobs jobs' :
  claimUpdate id a jobs = (jobs', None) → jobs' = jobs.
Proof.
  unfold claimUpdate. destruct (jobs !! id) as [j|]; [|by intros [= <-]].
  case_bool_decide; [done | by intros [= <-]].
Qed.

End StoreFacts.

(* ===================================================================== *)
(** * The tick run alone                                                  *)
(* ===================================================================== *)

Section TickFacts.

Variable MAX_ATTEMPTS : Z.

Implicit Types (w : outcomes) (p : worker) (db : store) (c : option Whatsapp)
  (id phone message : string) (job u : job).

Lemma orElse_positive a d : 0 < a → orElse (Some a) d = a.
Proof. intros H. unfold orElse. destruct (a =? 0) eqn:E; lia. Qed.

(** The attempts written by a claim are positive when the count read
    by the query was not negative. *)
Lemma currentAttempts_positive job :
  (∀ n, attempts job = Some n → 0 ≤ n) → 0 < orElse (attempts job) 0 + 1.
Proof.
  intros H. unfold orElse. destruct (attempts job) as [n|]; [|lia].
  specialize (H n eq_refl). destruct (n =? 0); lia.
Qed.

(** A tick that finds a queued job and whose claim is answered goes on
    to the send with the claimed row. *)
Lemma tickBody_claimed w c db id job phone :
  queryReply w = Ok → claimReply w = Ok →
  selectOldestQueued (outbox_jobs db) = Some (id, job) →
  to_phone_e164 job = Some phone →
  tickBody MAX_ATTEMPTS w c db
  = sendAndRecord MAX_ATTEMPTS w c id
      (withAttempts (orElse (attempts job) 0 + 1) (withStatus processing job))
      (e164ToWhatsAppId (normalizePhone phone))
      (withJobs (<[id := withAttempts (orElse (attempts job) 0 + 1)
                             (withStatus processing job)]> (outbox_jobs db)) db).
Proof.
  intros Hq Hc Hsel Hphone. unfold tickBody. rewrite Hq, Hsel, Hc.
  apply selectOldestQueued_Some in Hsel as [Hj Hst].
  rewrite (claimUpdate_queued _ _ _ _ Hj Hst). cbn [to_phone_e164 withAttempts withStatus].
  by rewrite Hphone.
Qed.



(** A tick run alone leaves a row that is [sent] or [failed] as it is. *)
Lemma tickBody_terminal w c db id j :
  outbox_jobs db !! id = Some j → isTerminal (status j) = true →
  outbox_jobs (tickBody MAX_ATTEMPTS w c db).1 !! id = Some j.
Proof.
  intros Hj Hterm. unfold tickBody.
  destruct (queryReply w); [|done].
  destruct (selectOldestQueued (outbox_jobs db)) as [[id0 job]|] eqn:Hsel; [|done].
  apply selectOldestQueued_Some in Hsel as [Hj0 Hq0].
  destruct (claimReply w); [|done].
  rewrite (claimUpdate_queued _ _ _ _ Hj0 Hq0).
  assert (id0 ≠ id) as Hne.
  { intros ->. rewrite Hj in Hj0. injection Hj0 as <-. by rewrite Hq0 in Hterm. }
  cbn [to_phone_e164 withAttempts withStatus].
  destruct (to_phone_e164 job) as [phone|];
    [|cbn [fst outbox_jobs withJobs]; by rewrite lookup_insert_ne].
  unfold sendAndRecord, updateById.
  destruct (match c with Some _ => sendReply w | None => _ end) as [|[|thrownMessage]];
    destruct (jobUpdateReply w);
    repeat match goal with
      | |- context [match ?x with Some _ => _ | None => _ end] => destruct x
      end;
    cbn [fst outbox_jobs withJobs withMessages applyIfOk];
    rewrite ?lookup_alter_ne by done; by rewrite lookup_insert_ne.
Qed.



(** A claim that finds the row no longer queued ends the invocation
    and leaves the store as it is. *)
Lemma resume_claim_lost c (r : reply) id snapshot db :
  (∀ j, outbox_jobs db !! id = Some j → status j ≠ queued) →
  resume MAX_ATTEMPTS c r (AwaitClaim id snapshot) db = (None, db).
Proof.
  intros H. cbn [resume]. destruct r; [|done].
  by rewrite (claimUpdate_not_queued _ _ _ H).
Qed.

(** With a snapshot that is the row as it stands, the claim adds one
    to the attempts (a null or zero count reads as zero). *)
Lemma resume_claim_fresh c id j db :
  outbox_jobs db !! id = Some j → status j = queued →
  ∃ k, resume MAX_ATTEMPTS c Ok (AwaitClaim id j) db
       = (k, withJobs (<[id := withAttempts (orElse (attempts j) 0 + 1)
                                  (withStatus processing j)]> (outbox_jobs db)) db).
Proof.
  intros Hj Hq. cbn [resume]. rewrite (claimUpdate_queued _ _ _ _ Hj Hq). by eexists.
Qed.

End TickFacts.

Example happy_path :
  processOutboundJob 5 Samples.allOk Samples.readyWorker Samples.db1
  = mkResult Samples.readyWorker
      (mkStore {[ "job-1" := mkJob (Some "+15551234567") "hi" sent (Some 1) None 100
                                   (Some "msg-1") ]}
               {[ "msg-1" := "sent" ]})
      [("15551234567@c.us", "hi")].
Proof. vm_compute. reflexivity. Qed.

Example exhaustion :
  processOutboundJob 2 Samples.sendThrows Samples.readyWorker Samples.db2
  = mkResult Samples.readyWorker
      (mkStore {[ "job-2" := mkJob (Some "447900000001@c.us") "order ready" failed (Some 2)
                                   (Some "Evaluation failed: timeout") 200 None ]} ∅)
      [("447900000001@c.us", "order ready")].
Proof. vm_compute. reflexivity. Qed.

(** Two workers race for the one queued job: the loser of the race is
    back at rest with its flag down, the winner awaits [sendText], and
    the row was written once. *)
Example two_workers_race :
  run 5 Samples.raceSchedule Samples.twoWorkers
  = Some (mkSystem
            [mkProc Samples.readyWorker [];
             mkProc (mkWorker (Some Samples.theClient) true)
                    [AwaitSend "job-1"
                       (mkJob (Some "+15551234567") "hi" processing (Some 1) None 100
                              (Some "msg-1"))
                       "15551234567@c.us"]]
            (mkStore {[ "job-1" := mkJob (Some "+15551234567") "hi" processing (Some 1)
                                         None 100 (Some "msg-1") ]}
                     {[ "msg-1" := "queued" ]})).
Proof. vm_compute. reflexivity. Qed.

(** C2.  The code breaks the claim when the row changes between the
    query and the claim of an invocation.  The first of two workers
    selects a queued job with attempts 0; the second one claims the job,
    fails to send and puts it back, twice, which leaves it queued with
    attempts 2; the claim of the first one then matches the queued row
    and writes the attempts it computed from its own query: 1. *)
Theorem stale_claim_lowers_attempts :
  Samples.rowOf "job-1" (run 5 Samples.staleSchedule Samples.twoWorkers)
  = Some (queued, Some 2)
  ∧ Samples.rowOf "job-1"
      (run 5 (Samples.staleSchedule ++ [Return 0 0 Ok]) Samples.twoWorkers)
    = Some (processing, Some 1).
Proof. vm_compute. done. Qed.









(* ===================================================================== *)
(** * Several workers on one store                                        *)
(* ===================================================================== *)

Section SystemFacts.

Variable MAX_ATTEMPTS : Z.

Implicit Types (s : system) (p : proc) (k : tick_state) (id : string).

(** ** Schedules *)

Lemma exec_step a s s' :
  exec MAX_ATTEMPTS a s = Some s' → step MAX_ATTEMPTS s s'.
Proof.
  destruct a as [n|n i r|id j]; cbn [exec].
  - destruct (procs s !! n) as [p|] eqn:Hp; [|done]. intros [= <-].
    by apply step_timer.
  - destruct (procs s !! n) as [p|] eqn:Hp; [|done]. cbn.
    destruct (inflight p !! i) as [k|] eqn:Hk; [|done]. cbn.
    destruct (fits k r) eqn:Hfit; [|done]. intros [= <-].
    by eapply step_resume.
  - destruct (outbox_jobs (db s) !! id) eqn:Hid; [done|].
    case_bool_decide; [|done]. intros [= <-]. by apply step_enqueue.
Qed.

Lemma run_rtc schedule s s' :
  run MAX_ATTEMPTS schedule s = Some s' → rtc (step MAX_ATTEMPTS) s s'.
Proof.
  revert s. induction schedule as [|a rest IH]; intros s; cbn [run].
  - by intros [= <-].
  - destruct (exec MAX_ATTEMPTS a s) as [s1|] eqn:E; [|done]. cbn. intros H.
    eapply rtc_l; [eapply exec_step, E | by apply IH].
Qed.

Lemma run_reachable schedule s s' :
  Forall idle (procs s) → run MAX_ATTEMPTS schedule s = Some s' →
  reachable MAX_ATTEMPTS s'.
Proof. intros Hidle Hrun. exists s. split; [done | by eapply run_rtc]. Qed.

Lemma reachable_step s s' :
  reachable MAX_ATTEMPTS s → step MAX_ATTEMPTS s s' → reachable MAX_ATTEMPTS s'.
Proof. intros (s0 & H0 & Hrtc) Hstep. exists s0. split; [done | by eapply rtc_r]. Qed.

Lemma reachable_rtc s s' :
  reachable MAX_ATTEMPTS s → rtc (step MAX_ATTEMPTS) s s' → reachable MAX_ATTEMPTS s'.
Proof. intros (s0 & H0 & Hrtc) Hsteps. exists s0. split; [done | by etrans]. Qed.

(** ** One invocation per process *)

Lemma idle_singleFlight p : idle p → singleFlight p.
Proof. intros [? ?]. by left. Qed.

Lemma invoke_singleFlight p : singleFlight p → singleFlight (invoke p).
Proof.
  intros [[Hf Hi]|[Hf Hi]]; unfold invoke; rewrite Hf.
  - right. cbn. rewrite Hi. eauto.
  - by right.
Qed.

Lemma singleFlight_lookup p i k :
  singleFlight p → inflight p !! i = Some k →
  isProcessingJob (vars p) = true ∧ inflight p = [k] ∧ i = 0%nat.
Proof.
  intros [[_ Hi]|[Hf [k0 Hi]]] Hk; rewrite Hi in Hk; [done|].
  destruct i as [|i]; [|done]. injection Hk as <-. by rewrite Hi.
Qed.

Lemma settle_singleFlight p i k (next : option tick_state) :
  singleFlight p → inflight p !! i = Some k → singleFlight (settle p i next).
Proof.
  intros Hp Hk. destruct (singleFlight_lookup _ _ _ Hp Hk) as (Hf & Hi & ->).
  destruct next as [k2|]; cbn [settle].
  - right. cbn. rewrite Hf, Hi. eauto.
  - left. cbn. by rewrite Hi.
Qed.

Lemma step_singleFlight s s' :
  Forall singleFlight (procs s) → step MAX_ATTEMPTS s s' →
  Forall singleFlight (procs s').
Proof.
  intros Hall Hstep. destruct Hstep as [s n p Hp|s n p i k r Hp Hk Hfit|s id j Hid Hj];
    cbn [procs]; [| |done].
  - apply Forall_insert; [done|]. apply invoke_singleFlight.
    by eapply Forall_lookup_1.
  - apply Forall_insert; [done|]. eapply settle_singleFlight; [|done].
    by eapply Forall_lookup_1.
Qed.

Lemma reachable_singleFlight s :
  reachable MAX_ATTEMPTS s → Forall singleFlight (procs s).
Proof.
  intros (s0 & H0 & Hrtc). revert s Hrtc. apply rtc_ind_r.
  - eapply Forall_impl; [done|]. apply idle_singleFlight.
  - intros s1 s2 _ Hstep IH. by eapply step_singleFlight.
Qed.

(** ** One owner per claimed job *)

Lemma sum_list_with_insert {A} (f : A → nat) (l : list A) (n : nat) (x y : A) :
  l !! n = Some x →
  (sum_list_with f (<[n := y]> l) + f x = sum_list_with f l + f y)%nat.
Proof.
  revert n. induction l as [|a l IH]; intros [|n] H; try done; simpl in *.
  - injection H as ->. lia.
  - specialize (IH n H). lia.
Qed.

Lemma owners_insert s n p q d id :
  procs s !! n = Some p →
  (owners id (mkSystem (<[n := q]> (procs s)) d) + ownersIn id (inflight p)
   = owners id s + ownersIn id (inflight q))%nat.
Proof.
  intros Hp. unfold owners. cbn [procs].
  by apply (sum_list_with_insert (λ p, ownersIn id (inflight p))).
Qed.

Lemma ownersIn_singleton id k : ownersIn id [k] = ownsOpt id (owned k).
Proof. unfold ownersIn, ownsOpt. cbn. by destruct (bool_decide _). Qed.

Lemma ownersIn_settle id p k (next : option tick_state) :
  inflight p = [k] → ownersIn id (inflight (settle p 0 next)) = ownsOpt id (next ≫= owned).
Proof.
  intros Hi. destruct next as [k2|]; cbn [settle inflight]; rewrite Hi.
  - apply ownersIn_singleton.
  - reflexivity.
Qed.

Lemma ownersIn_invoke id p : ownersIn id (inflight (invoke p)) = ownersIn id (inflight p).
Proof.
  unfold invoke. destruct (isProcessingJob (vars p)); [done|]. cbn [inflight].
  unfold ownersIn. rewrite List.filter_app, length_app.
  cbn [List.filter owned]. rewrite bool_decide_eq_false_2 by done. cbn [length]. lia.
Qed.

Lemma owners_le s n p id :
  procs s !! n = Some p → (ownersIn id (inflight p) ≤ owners id s)%nat.
Proof.
  intros Hp. unfold owners.
  apply (sum_list_with_in p (λ p, ownersIn id (inflight p))).
  by eapply list_elem_of_lookup_2.
Qed.

Lemma owners_idle s id : Forall idle (procs s) → owners id s = 0%nat.
Proof.
  unfold owners. induction 1 as [|p l [_ Hi] _ IH]; cbn; [done|].
  by rewrite Hi, IH.
Qed.

(** What one return does to the jobs table and to ownership: either it
    writes at most the row its invocation owns and takes on no new row,
    or it is the claim of a queued row, which becomes [processing]. *)
Lemma resume_effect c (a : answer) k db :
  let next := (resume MAX_ATTEMPTS c a k db).1 in
  let db' := (resume MAX_ATTEMPTS c a k db).2 in
  ((∀ id, owned k ≠ Some id → outbox_jobs db' !! id = outbox_jobs db !! id)
   ∧ (next ≫= owned = None
      ∨ (next ≫= owned = owned k ∧ outbox_jobs db' = outbox_jobs db)))
  ∨ (∃ id0 j u,
       owned k = None
       ∧ outbox_jobs db !! id0 = Some j ∧ status j = queued
       ∧ status u = processing
       ∧ outbox_jobs db' = <[id0 := u]> (outbox_jobs db)
       ∧ (next ≫= owned = None ∨ next ≫= owned = Some id0)).
Proof.
  destruct k as [|id0 job|id0 u wid|id0 u|mid|id0 u message|mid];
    destruct a as [r|r]; cbn [resume].
  - left. destruct r; [|by auto].
    destruct (selectOldestQueued (outbox_jobs db)) as [[id job]|]; by auto.
  - left. by auto.
  - destruct r; [|by left; auto].
    destruct (claimUpdate id0 _ (outbox_jobs db)) as [jobs [u|]] eqn:E; [|by left; auto].
    apply claimUpdate_Some_inv in E as (j & Hj & Hq & Hu & Hjobs).
    right. exists id0, j, u. split_and!; [done..|by rewrite Hu| done |].
    unfold afterClaim. destruct (to_phone_e164 u); [|by left].
    destruct c; by right.
  - left. by auto.
  - left. by auto.
  - left. destruct r as [|[|thrownMessage]]; cbn; by auto.
  - left. cbn [fst snd outbox_jobs withJobs]. split.
    + intros id Hid. cbn [owned] in Hid. destruct r; [|done].
      cbn [applyIfOk]. unfold updateById. apply lookup_alter_ne. congruence.
    + left. by destruct (truthy (message_id u)).
  - left. by auto.
  - left. by auto.
  - left. by auto.
  - left. cbn [fst snd outbox_jobs withJobs]. split.
    + intros id Hid. cbn [owned] in Hid. destruct r; [|done].
      cbn [applyIfOk]. unfold updateById. apply lookup_alter_ne. congruence.
    + left. destruct (MAX_ATTEMPTS <=? _); [|done]. by destruct (truthy (message_id u)).
  - left. by auto.
  - left. by auto.
  - left. by auto.
Qed.

Lemma step_exclusive s s' :
  Forall singleFlight (procs s) → exclusive s → step MAX_ATTEMPTS s s' → exclusive s'.
Proof.
  intros Hall Hex Hstep.
  destruct Hstep as [s n p Hp|s n p i k r Hp Hk Hfit|s id0 j Hid Hj]; intros id;
    destruct (Hex id) as [Hle Hrow].
  - pose proof (owners_insert s n p (invoke p) (db s) id Hp) as Hsum.
    rewrite ownersIn_invoke in Hsum.
    replace (owners id (mkSystem (<[n:=invoke p]> (procs s)) (db s)))
      with (owners id s) by lia. done.
  - pose proof (Forall_lookup_1 _ _ _ _ Hall Hp) as Hflight.
    destruct (singleFlight_lookup _ _ _ Hflight Hk) as (_ & Hi & ->).
    set (res := resume MAX_ATTEMPTS (client (vars p)) r k (db s)).
    pose proof (owners_insert s n p (settle p 0 res.1) res.2 id Hp) as Hsum.
    rewrite (ownersIn_settle _ _ _ _ Hi), Hi, ownersIn_singleton in Hsum.
    pose proof (owners_le s n p id Hp) as Hown.
    rewrite Hi, ownersIn_singleton in Hown.
    cbn [db]. destruct (resume_effect (client (vars p)) r k (db s))
      as [[Hother Hnext]|(id1 & j1 & u1 & Hk0 & Hj1 & Hq1 & Hu1 & Hjobs & Hnext)].
    + fold res in Hother, Hnext. unfold ownsOpt in Hsum, Hown. destruct Hnext as [Hnone|[Hsame Hjobs]].
      * rewrite Hnone in Hsum.
        rewrite (bool_decide_eq_false_2 (None = Some id)) in Hsum by done.
        destruct (decide (owned k = Some id)) as [Hk1|Hk1].
        -- rewrite (bool_decide_eq_true_2 _ Hk1) in Hsum. split; [lia|]. intros H1. lia.
        -- rewrite (bool_decide_eq_false_2 _ Hk1) in Hsum. split; [lia|]. intros H1.
           rewrite Hother by done. apply Hrow. lia.
      * rewrite Hsame in Hsum. split; [lia|]. intros H1.
        rewrite Hjobs. apply Hrow. lia.
    + fold res in Hjobs, Hnext. unfold ownsOpt in Hsum. rewrite Hk0 in Hsum.
      rewrite (bool_decide_eq_false_2 (None = Some id)) in Hsum by done.
      assert (owners id1 s = 0%nat) as Hfree.
      { destruct (Hex id1) as [Hle1 Hrow1].
        destruct (decide (owners id1 s = 1%nat)) as [H1|H1]; [|lia].
        destruct (Hrow1 H1) as (j' & Hj' & Hp'). congruence. }
      rewrite Hjobs. destruct (decide (id = id1)) as [->|Hne].
      * split; [destruct (bool_decide _) in Hsum; lia|]. intros _. exists u1.
        by rewrite lookup_insert_eq.
      * assert (res.1 ≫= owned ≠ Some id) as Hnot
          by (destruct Hnext as [-> | ->]; congruence).
        rewrite bool_decide_eq_false_2 in Hsum by done.
        split; [lia|]. intros H1. rewrite lookup_insert_ne by done.
        apply Hrow. lia.
  - cbn [db procs outbox_jobs withJobs].
    change (owners id (mkSystem (procs s) _)) with (owners id s).
    split; [done|]. intros H1. destruct (Hrow H1) as (j' & Hj' & Hp').
    exists j'. split; [|done]. rewrite lookup_insert_ne; [done|]. congruence.
Qed.

Lemma reachable_exclusive s : reachable MAX_ATTEMPTS s → exclusive s.
Proof.
  intros (s0 & H0 & Hrtc).
  assert (Forall singleFlight (procs s) ∧ exclusive s) as [_ H]; [|done].
  revert s Hrtc. apply rtc_ind_r.
  - split; [eapply Forall_impl; [done | apply idle_singleFlight]|].
    intros id. rewrite (owners_idle _ _ H0). split; [lia | done].
  - intros s1 s2 _ Hstep [Hflight Hex]. split.
    + by eapply step_singleFlight.
    + by eapply step_exclusive.
Qed.

(** A step never rewrites a row that is [sent] or [failed]. *)
Lemma step_terminal s s' id j :
  Forall singleFlight (procs s) → exclusive s → step MAX_ATTEMPTS s s' →
  outbox_jobs (db s) !! id = Some j → isTerminal (status j) = true →
  outbox_jobs (db s') !! id = Some j.
Proof.
  intros Hall Hex Hstep Hj Hterm.
  destruct Hstep as [s n p Hp|s n p i k r Hp Hk Hfit|s id0 j0 Hid Hj0]; cbn [db].
  - done.
  - pose proof (Forall_lookup_1 _ _ _ _ Hall Hp) as Hflight.
    destruct (singleFlight_lookup _ _ _ Hflight Hk) as (_ & Hi & ->).
    destruct (resume_effect (client (vars p)) r k (db s))
      as [[Hother _]|(id1 & j1 & u1 & _ & Hj1 & Hq1 & _ & Hjobs & _)].
    + rewrite Hother; [done|]. intros Hk1.
      pose proof (owners_le s n p id Hp) as Hown.
      rewrite Hi, ownersIn_singleton in Hown. unfold ownsOpt in Hown.
      rewrite bool_decide_eq_true_2 in Hown by done.
      destruct (Hex id) as [Hle Hrow].
      destruct Hrow as (j' & Hj' & Hp'); [lia|].
      rewrite Hj in Hj'. injection Hj' as <-. by rewrite Hp' in Hterm.
    + rewrite Hjobs, lookup_insert_ne; [done|]. intros <-.
      rewrite Hj in Hj1. injection Hj1 as <-. by rewrite Hq1 in Hterm.
  - cbn [outbox_jobs withJobs]. rewrite lookup_insert_ne; [done|]. congruence.
Qed.

End SystemFacts.

(** C1, as the claim states it, fails.  Both workers have selected the
    one queued job and each has a claim on it pending.  The claim of the
    second worker reaches the store and succeeds; its send fails and it
    puts the job back to [queued].  The claim of the first worker then
    reaches the store, finds the job queued and succeeds as well: of the
    two claim attempts both got the job and none saw a zero-row
    update. *)
Lemma claim_after_requeue_counterexample :
  pending (run 5 Samples.bothSelect Samples.twoWorkers)
  = Some [[AwaitClaim "job-1" Samples.job1]; [AwaitClaim "job-1" Samples.job1]]
  ∧ pending (run 5 (Samples.bothSelect ++ [Return 1 0 Ok]) Samples.twoWorkers)
    = Some [[AwaitClaim "job-1" Samples.job1]; [Samples.sendingJob1]]
  ∧ Samples.rowOf "job-1" (run 5 (Samples.bothSelect
                                    ++ [Return 1 0 Ok;
                                        Return 1 0 (Rejected (Value (Text "timeout")));
                                        Return 1 0 Ok]) Samples.twoWorkers)
    = Some (queued, Some 1)
  ∧ pending (run 5 Samples.requeueSchedule Samples.twoWorkers)
    = Some [[AwaitSend "job-1"
               (mkJob (Some "+15551234567") "hi" processing (Some 1) (Some "timeout") 100
                      (Some "msg-1"))
               "15551234567@c.us"];
            []].
Proof. split_and!; vm_compute; reflexivity. Qed.

(** C1, amended.  In any state that workers can reach, take an
    invocation whose claim on the job [id] is about to return.  The
    update is conditional: if the claim reaches the store and the row is
    queued at that time, the row becomes [processing] with the attempts
    written in the same update, the invocation goes on with the row it
    got, no other invocation held the job, and every other claim on the
    job that is pending in the resulting state gets no row.  If the
    claim does not reach the store, or the row is no longer queued, the
    store is as before and the invocation ends with its flag down.  At
    every time a job is held by at most one invocation, a held job is
    [processing], and a claim that arrives while the job is held gets no
    row. *)
Theorem claim_exclusive (MAX_ATTEMPTS : Z) (s : system) (n i : nat) (p : proc)
    (id : string) (snapshot : job) (r : reply) :
  reachable MAX_ATTEMPTS s →
  procs s !! n = Some p →
  inflight p !! i = Some (AwaitClaim id snapshot) →
  let c := client (vars p) in
  let next := resume MAX_ATTEMPTS c r (AwaitClaim id snapshot) (db s) in
  let s' := mkSystem (<[n := settle p i next.1]> (procs s)) next.2 in
  (∀ j, r = Ok → outbox_jobs (db s) !! id = Some j → status j = queued →
        let claimed :=
          withAttempts (orElse (attempts snapshot) 0 + 1) (withStatus processing j) in
        next = (afterClaim c id claimed,
                withJobs (<[id := claimed]> (outbox_jobs (db s))) (db s))
        ∧ owners id s = 0%nat
        ∧ ∀ n' p' i' snapshot' (r' : reply),
            procs s' !! n' = Some p' →
            inflight p' !! i' = Some (AwaitClaim id snapshot') →
            resume MAX_ATTEMPTS (client (vars p')) r' (AwaitClaim id snapshot') (db s')
            = (None, db s'))
  ∧ ((r ≠ Ok ∨ ∀ j, outbox_jobs (db s) !! id = Some j → status j ≠ queued) →
     next = (None, db s)
     ∧ s' = mkSystem (<[n := mkProc (mkWorker c false) []]> (procs s)) (db s))
  ∧ (∀ id', (owners id' s ≤ 1)%nat
            ∧ (owners id' s = 1%nat →
               ∃ j, outbox_jobs (db s) !! id' = Some j ∧ status j = processing))
  ∧ (owners id s = 1%nat → next = (None, db s)).
Proof.
  intros Hreach Hp Hk c next s'.
  pose proof (reachable_singleFlight _ _ Hreach) as Hall.
  pose proof (reachable_exclusive _ _ Hreach) as Hex.
  pose proof (Forall_lookup_1 _ _ _ _ Hall Hp) as Hflight.
  destruct (singleFlight_lookup _ _ _ Hflight Hk) as (_ & Hi & ->).
  assert (owners id s = 1%nat → next = (None, db s)) as Hheld.
  { intros H1. destruct (Hex id) as [_ Hrow]. destruct (Hrow H1) as (j & Hj & Hst).
    apply resume_claim_lost. intros j' Hj'. rewrite Hj in Hj'. injection Hj' as <-.
    by rewrite Hst. }
  split_and!; [| |exact Hex|exact Hheld].
  - intros j -> Hj Hq claimed.
    assert (next = (afterClaim c id claimed,
                    withJobs (<[id := claimed]> (outbox_jobs (db s))) (db s))) as Hnext.
    { unfold next. cbn [resume]. by rewrite (claimUpdate_queued _ _ _ _ Hj Hq). }
    split_and!; [exact Hnext| |].
    + destruct (Hex id) as [Hle Hrow].
      destruct (decide (owners id s = 1%nat)) as [H1|H1]; [|lia].
      destruct (Hrow H1) as (j' & Hj' & Hst'). rewrite Hj in Hj'. injection Hj' as <-.
      by rewrite Hq in Hst'.
    + intros n' p' i' snapshot' r' _ _. apply resume_claim_lost.
      unfold s'. rewrite Hnext. cbn [db snd outbox_jobs withJobs].
      rewrite lookup_insert_eq. by intros j' [= <-].
  - intros Hlost.
    assert (next = (None, db s)) as Hnext.
    { destruct Hlost as [Hr|Hnot]; [|by apply resume_claim_lost].
      unfold next. cbn [resume]. by destruct r. }
    split; [exact Hnext|]. unfold s'. rewrite Hnext. cbn [fst snd settle].
    by rewrite Hi.
Qed.

Lemma claim_exclusive_witness :
  resume 5 (Some Samples.theClient) Ok (AwaitClaim "job-1" Samples.job1)
         (db Samples.bothClaiming)
  = (Some Samples.sendingJob1,
     mkStore {[ "job-1" := mkJob (Some "+15551234567") "hi" processing (Some 1) None 100
                                 (Some "msg-1") ]}
             {[ "msg-1" := "queued" ]})
  ∧ ∀ r' : reply,
      resume 5 (Some Samples.theClient) r' (AwaitClaim "job-1" Samples.job1)
             (mkStore {[ "job-1" := mkJob (Some "+15551234567") "hi" processing (Some 1)
                                          None 100 (Some "msg-1") ]}
                      {[ "msg-1" := "queued" ]})
      = (None,
         mkStore {[ "job-1" := mkJob (Some "+15551234567") "hi" processing (Some 1)
                                     None 100 (Some "msg-1") ]}
                 {[ "msg-1" := "queued" ]}).
Proof.
  assert (reachable 5 Samples.bothClaiming) as Hreach.
  { apply (run_reachable 5 Samples.bothSelect Samples.twoWorkers).
    - repeat constructor.
    - vm_compute. reflexivity. }
  destruct (claim_exclusive 5 Samples.bothClaiming 1 0
              (mkProc (mkWorker (Some Samples.theClient) true)
                      [AwaitClaim "job-1" Samples.job1])
              "job-1" Samples.job1 Ok Hreach eq_refl eq_refl) as (Hwin & _).
  destruct (Hwin Samples.job1 eq_refl eq_refl eq_refl) as (Hnext & _ & Hothers).
  split.
  - etrans; [exact Hnext|]. vm_compute. reflexivity.
  - intros r'.
    exact (Hothers 0%nat (mkProc (mkWorker (Some Samples.theClient) true)
                                 [AwaitClaim "job-1" Samples.job1])
                   0%nat Samples.job1 r' eq_refl eq_refl).
Defined.


(** C8.  In every state the workers can reach, a process runs at most
    one invocation of the tick, so at most one [sendText] of it is
    pending, and its flag is up exactly while that invocation runs; an
    invocation that begins meanwhile returns at once and changes
    nothing, in the process and in the store.  The flag is down after
    every invocation that passed the guard, however it ended. *)
Theorem reentrancy_guard (MAX_ATTEMPTS : Z) (s : system) :
  reachable MAX_ATTEMPTS s →
  (∀ n p, procs s !! n = Some p →
     (length (inflight p) ≤ 1)%nat
     ∧ (length (List.filter isSending (inflight p)) ≤ 1)%nat
     ∧ (isProcessingJob (vars p) = true ↔ inflight p ≠ [])
     ∧ (inflight p ≠ [] → invoke p = p))
  ∧ (∀ w p db, isProcessingJob p = true →
       processOutboundJob MAX_ATTEMPTS w p db = mkResult p db [])
  ∧ (∀ w p db, isProcessingJob p = false →
       isProcessingJob (worker_after (processOutboundJob MAX_ATTEMPTS w p db)) = false)
  ∧ (∀ p i, isProcessingJob (vars (settle p i None)) = false).
Proof.
  intros Hreach. split_and!.
  - intros n p Hp.
    pose proof (Forall_lookup_1 _ _ _ _ (reachable_singleFlight _ _ Hreach) Hp)
      as [[Hf Hi]|[Hf [k Hi]]]; rewrite Hi.
    + split_and!; [cbn; lia | cbn; lia | by rewrite Hf | done].
    + split_and!; [cbn; lia | cbn; destruct (isSending k); cbn; lia | by rewrite Hf |].
      intros _. unfold invoke. by rewrite Hf.
  - intros w p db Hf. unfold processOutboundJob. by rewrite Hf.
  - intros w p db Hf. unfold processOutboundJob. rewrite Hf.
    by destruct (tickBody MAX_ATTEMPTS w (client p) db).
  - done.
Qed.

Lemma reentrancy_guard_witness :
  reachable 5 Samples.afterDoubleTimer
  ∧ procs Samples.afterDoubleTimer !! 0%nat = Some Samples.busyProc
  ∧ invoke Samples.busyProc = Samples.busyProc.
Proof.
  assert (reachable 5 Samples.afterDoubleTimer) as Hreach.
  { apply (run_reachable 5 Samples.doubleTimer Samples.twoWorkers).
    - repeat constructor.
    - vm_compute. reflexivity. }
  assert (procs Samples.afterDoubleTimer !! 0%nat = Some Samples.busyProc) as Hp
    by (vm_compute; reflexivity).
  split_and!; [exact Hreach | exact Hp |].
  destruct (reentrancy_guard 5 Samples.afterDoubleTimer Hreach) as (H & _).
  destruct (H 0%nat Samples.busyProc Hp) as (_ & _ & _ & Hinvoke).
  apply Hinvoke. discriminate.
Defined.

(** C9.  Once a row is [sent] or [failed] in a state the workers can
    reach, it is the same row after any number of further steps of any
    of them: the query does not select it, a claim on it matches no row,
    and no tick, interleaved or run alone, writes it. *)
Theorem terminal_immutable (MAX_ATTEMPTS : Z) (s s' : system) (id : string) (j : job) :
  reachable MAX_ATTEMPTS s →
  rtc (step MAX_ATTEMPTS) s s' →
  outbox_jobs (db s) !! id = Some j →
  isTerminal (status j) = true →
  outbox_jobs (db s') !! id = Some j
  ∧ (∀ j', selectOldestQueued (outbox_jobs (db s')) ≠ Some (id, j'))
  ∧ (∀ a, claimUpdate id a (outbox_jobs (db s')) = (outbox_jobs (db s'), None))
  ∧ (∀ w p, outbox_jobs (store_after (processOutboundJob MAX_ATTEMPTS w p (db s'))) !! id
            = Some j).
Proof.
  intros Hreach Hsteps Hj Hterm.
  assert (reachable MAX_ATTEMPTS s' ∧ outbox_jobs (db s') !! id = Some j) as [_ Hj'].
  { revert s' Hsteps. apply rtc_ind_r; [done|].
    intros s1 s2 _ Hstep [Hreach1 Hj1]. split.
    - by eapply reachable_step.
    - eapply step_terminal; [| |done..].
      + by apply (reachable_singleFlight MAX_ATTEMPTS).
      + by apply (reachable_exclusive MAX_ATTEMPTS). }
  assert (∀ j0, outbox_jobs (db s') !! id = Some j0 → status j0 ≠ queued) as Hnot.
  { intros j0. rewrite Hj'. intros [= <-] Hq. by rewrite Hq in Hterm. }
  split_and!.
  - done.
  - intros j0 Hsel. apply selectOldestQueued_Some in Hsel as [Hj0 Hq]. by eapply Hnot.
  - intros a. by apply claimUpdate_not_queued.
  - intros w p. unfold processOutboundJob. destruct (isProcessingJob p); [done|].
    pose proof (tickBody_terminal MAX_ATTEMPTS w (client p) (db s') id j Hj' Hterm) as H.
    by destruct (tickBody MAX_ATTEMPTS w (client p) (db s')).
Qed.

Lemma terminal_immutable_witness :
  Samples.rowOf "job-1" (Some Samples.afterHappyTick) = Some (sent, Some 1)
  ∧ Samples.rowOf "job-2" (Some Samples.afterLater) = Some (queued, Some 2)
  ∧ outbox_jobs (db Samples.afterLater) !! "job-1" = Some Samples.job1Sent.
Proof.
  split_and!; [vm_compute; reflexivity..|].
  refine (proj1 (terminal_immutable 5 Samples.afterHappyTick Samples.afterLater "job-1"
                   Samples.job1Sent _ _ _ eq_refl)).
  - apply (run_reachable 5 (Samples.happyTick 0) Samples.twoWorkers).
    + repeat constructor.
    + vm_compute. reflexivity.
  - apply (run_rtc 5 Samples.laterSchedule). vm_compute. reflexivity.
  - vm_compute. reflexivity.
Defined.

(* ===================================================================== *)
(** * More on phone numbers                                               *)
(* ===================================================================== *)

Section MorePhoneFacts.

Implicit Types x y p s a b : string.

Lemma length_append a s :
  String.length (a +:+ s) = (String.length a + String.length s)%nat.
Proof. induction a as [|c a IH]; simpl; [done|]. by rewrite IH. Qed.

Lemma append_cancel_r s a b : a +:+ s = b +:+ s → a = b.
Proof.
  revert b. induction a as [|c a IH]; intros [|d b] H; simpl in H.
  - done.
  - apply (f_equal String.length) in H. rewrite !length_append in H. simpl in H. lia.
  - apply (f_equal String.length) in H. rewrite !length_append in H. simpl in H. lia.
  - injection H as -> H. f_equal. by apply IH.
Qed.

Lemma split0_idem c x : split0 c (split0 c x) = split0 c x.
Proof. apply split0_absent, count_split0. Qed.

End MorePhoneFacts.

(** X1.  Normalizing what [extractPhoneFromWhatsAppId] returns is
    normalizing the WhatsApp ID itself: the inbound handler's two calls
    do the work of [normalizePhone] alone. *)
Theorem normalizePhone_extractPhone (whatsappId : string) :
  normalizePhone (extractPhoneFromWhatsAppId whatsappId) = normalizePhone whatsappId.
Proof.
  unfold normalizePhone, extractPhoneFromWhatsAppId. by rewrite split0_idem.
Qed.

(** X2.  A sender's WhatsApp ID [p@c.us], with [p] free of at signs,
    of white space at its ends and of a leading plus sign, comes out
    of the inbound normalization as [+p], and the address the tick
    computes for [+p] is [p@c.us] again. *)
Theorem sender_address_round_trip (p : string) :
  includes "@" p = false →
  trim p = p →
  startsWith "+" p = false →
  normalizePhone (extractPhoneFromWhatsAppId (p +:+ "@c.us")) = "+" +:+ p
  ∧ e164ToWhatsAppId (normalizePhone ("+" +:+ p)) = p +:+ "@c.us".
Proof.
  intros Hat Htrim Hplus. apply includes_char_count in Hat.
  assert (normalizePhone p = "+" +:+ p) as Hnorm.
  { unfold normalizePhone. by rewrite (split0_absent _ _ Hat), Htrim, Hplus. }
  split.
  - unfold normalizePhone, extractPhoneFromWhatsAppId. rewrite split0_idem.
    change (p +:+ "@c.us") with (p +:+ "@" +:+ "c.us").
    by rewrite (split0_before_at _ _ Hat), Htrim, Hplus.
  - rewrite <- Hnorm.
    rewrite (normalizePhone_fixed (normalizePhone p)
               (normalizePhone_count_at p) (normalizePhone_trimmed p)
               (normalizePhone_startsWith_plus p)).
    rewrite channel_address_of_normal_form.
    by rewrite (split0_absent _ _ Hat), Htrim, (not_startsWith_plus _ Hplus).
Qed.

Lemma sender_address_round_trip_witness :
  normalizePhone (extractPhoneFromWhatsAppId "447900000001@c.us") = "+447900000001"
  ∧ e164ToWhatsAppId (normalizePhone "+447900000001") = "447900000001@c.us".
Proof.
  exact (sender_address_round_trip "447900000001" eq_refl eq_refl eq_refl).
Defined.

(** X3.  The address the tick sends to holds exactly one at sign, and
    two phone numbers with different normal forms never get the same
    address. *)
Theorem channel_address_injective (x y : string) :
  count "@" (e164ToWhatsAppId (normalizePhone x)) = 1%nat
  ∧ (e164ToWhatsAppId (normalizePhone x) = e164ToWhatsAppId (normalizePhone y) →
     normalizePhone x = normalizePhone y).
Proof.
  split.
  - unfold e164ToWhatsAppId.
    by rewrite count_app, count_at_stripLeadingPlus, (count_trim _ _ at_not_white),
      normalizePhone_count_at.
  - unfold e164ToWhatsAppId. rewrite !normalizePhone_trimmed. intros H.
    apply append_cancel_r in H.
    rewrite (startsWith_plus _ (normalizePhone_startsWith_plus x)),
      (startsWith_plus _ (normalizePhone_startsWith_plus y)).
    by rewrite H.
Qed.

(* ===================================================================== *)
(** * More on the profile directory                                       *)
(* ===================================================================== *)

Section MoreProfileFacts.

Implicit Types (n d : node) (entries : list (string * option node)) (depth : nat)
  (e : string * option node).

(** Induction on a node that reaches the entries of a directory. *)
Lemma node_induction (P : node → Prop) :
  (∀ c a, P (File c a)) →
  (∀ entries, Forall (λ e, ∀ d, e.2 = Some d → P d) entries → P (Dir entries)) →
  P Unreadable →
  ∀ n, P n.
Proof.
  intros HF HD HU. fix IH 1. intros [c a|entries|]; [apply HF| |apply HU]. apply HD.
  induction entries as [|[name [d|]] entries IHentries]; constructor;
    try apply IHentries.
  - intros d' [= <-]. apply IH.
  - intros d' [=].
Qed.

Lemma cleanLockFilesInDir_Dir depth entries :
  ∃ entries', cleanLockFilesInDir depth (Dir entries) = Dir entries'.
Proof. simpl. destruct (3 <? depth)%nat; by eexists. Qed.

Lemma flat_map_singletons {A} (f : A → list A) (l : list A) :
  (∀ x, In x l → f x = [x]) → flat_map f l = l.
Proof.
  induction l as [|x l IH]; intros H; [done|]. cbn [flat_map].
  rewrite (H x) by by left. cbn [app]. f_equal. apply IH. intros y Hy. apply H. by right.
Qed.

(** ** Lock cleanup *)

(** After the cleanup there is nothing left that it could unlink. *)
Lemma settled_cleanLockFilesInDir n depth :
  settled depth (cleanLockFilesInDir depth n) = true.
Proof.
  revert depth. induction n as [c a|entries IH|] using node_induction; intros depth.
  - done.
  - cbn [cleanLockFilesInDir]. destruct (3 <? depth)%nat eqn:E; cbn [settled]; rewrite E.
    + done.
    + cbn [orb]. apply forallb_forall. intros e' He'.
      apply in_flat_map in He' as (e & He & He').
      pose proof (proj1 (Forall_forall _ _) IH e (proj2 (list_elem_of_In _ _) He)) as IHe.
      destruct e as [name [[c a|sub|]|]]; unfold cleanEntry in He'; cbn [fst snd] in *.
      * destruct (isLockFile name && forceUnlink a) eqn:Hl; [done|].
        destruct He' as [<-|[]]. cbn [fst snd]. by rewrite Hl.
      * destruct He' as [<-|[]]. cbn [fst snd].
        destruct (cleanLockFilesInDir_Dir (S depth) sub) as [sub' Hsub].
        rewrite Hsub, <- Hsub. by apply IHe.
      * by destruct He' as [<-|[]].
      * by destruct He' as [<-|[]].
  - done.
Qed.

(** Where there is nothing to unlink the cleanup changes nothing. *)
Lemma settled_fixed n depth :
  settled depth n = true → cleanLockFilesInDir depth n = n.
Proof.
  revert depth. induction n as [c a|entries IH|] using node_induction; intros depth.
  - done.
  - cbn [cleanLockFilesInDir settled]. destruct (3 <? depth)%nat; [done|].
    cbn [orb]. intros H. f_equal. apply flat_map_singletons. intros e He.
    pose proof (proj1 (forallb_forall _ _) H e He) as Hcond.
    pose proof (proj1 (Forall_forall _ _) IH e (proj2 (list_elem_of_In _ _) He)) as IHe.
    destruct e as [name [[c a|sub|]|]]; unfold cleanEntry; cbn [fst snd] in *.
    + apply negb_true_iff in Hcond. by rewrite Hcond.
    + by rewrite (IHe (Dir sub) eq_refl (S depth) Hcond).
    + done.
    + done.
  - done.
Qed.

Lemma cleanLockFilesInDir_idem n depth :
  cleanLockFilesInDir depth (cleanLockFilesInDir depth n)
  = cleanLockFilesInDir depth n.
Proof. apply settled_fixed, settled_cleanLockFilesInDir. Qed.

Lemma filesOf_Dir_paths entries f : In f (filesOf (Dir entries)) → f.1.1 ≠ [].
Proof.
  cbn [filesOf]. intros H. apply in_flat_map in H as ([name [d|]] & _ & H); [|done].
  apply in_map_iff in H as (g & <- & _). done.
Qed.

Lemma unlinkedAt_deep depth path : (3 < depth)%nat → unlinkedAt depth path = false.
Proof.
  intros H. destruct path as [|name rest]; [done|]. cbn [unlinkedAt].
  by rewrite (proj2 (Nat.ltb_lt _ _) H).
Qed.

Lemma unlinkedAt_cons depth name path :
  path ≠ [] → (depth ≤ 3)%nat →
  unlinkedAt depth (name :: path) = unlinkedAt (S depth) path.
Proof.
  intros Hpath Hd. cbn [unlinkedAt]. rewrite (proj2 (Nat.ltb_ge _ _) Hd).
  by destruct path.
Qed.

(** The files left by [cleanLockFilesInDir] are the files that were
    there, less the ones it unlinks. *)
Lemma filesOf_cleanLockFilesInDir n depth :
  filesOf (cleanLockFilesInDir depth n)
  = List.filter (λ f, negb (unlinkedAt depth f.1.1 && forceUnlink f.2)) (filesOf n).
Proof.
  revert depth. induction n as [c a|entries IH|] using node_induction; intros depth.
  - done.
  - cbn [cleanLockFilesInDir]. destruct (3 <? depth)%nat eqn:E.
    + symmetry. apply forallb_filter_id, forallb_forall. intros f _.
      rewrite unlinkedAt_deep; [done|]. by apply Nat.ltb_lt.
    + apply Nat.ltb_ge in E. cbn [filesOf].
      induction IH as [|[name d] entries Hd _ IHentries]; [done|].
      cbn [flat_map]. rewrite flat_map_app, List.filter_app, IHentries. f_equal.
      cbn [fst snd] in *. destruct d as [[c a|sub|]|]; unfold cleanEntry; cbn [fst snd].
      * cbn [filesOf List.map List.filter fst snd unlinkedAt].
        rewrite (proj2 (Nat.ltb_ge _ _) E). cbn [negb andb].
        by destruct (isLockFile name && forceUnlink a).
      * cbn [flat_map]. rewrite app_nil_r. cbn [fst snd].
        rewrite (Hd (Dir sub) eq_refl).
        rewrite List.filter_map_swap. f_equal. apply List.filter_ext_in. intros f Hf.
        cbn [fst snd]. by rewrite (unlinkedAt_cons _ _ _ (filesOf_Dir_paths _ _ Hf) E).
      * done.
      * done.
  - done.
Qed.

(** No directory is removed, and none is added. *)
Lemma dirsOf_cleanLockFilesInDir n depth :
  dirsOf (cleanLockFilesInDir depth n) = dirsOf n.
Proof.
  revert depth. induction n as [c a|entries IH|] using node_induction; intros depth.
  - done.
  - cbn [cleanLockFilesInDir]. destruct (3 <? depth)%nat; [done|].
    cbn [dirsOf]. f_equal.
    induction IH as [|[name d] entries Hd _ IHentries]; [done|].
    cbn [flat_map]. rewrite flat_map_app, IHentries. f_equal.
    cbn [fst snd] in *. destruct d as [[c a|sub|]|]; unfold cleanEntry; cbn [fst snd].
    + by destruct (isLockFile name && forceUnlink a).
    + cbn [flat_map]. rewrite app_nil_r. cbn [fst snd]. by rewrite (Hd (Dir sub) eq_refl).
    + done.
    + done.
  - done.
Qed.

(** Every entry on which [statSync] throws is left where it is. *)
Lemma linksOf_cleanLockFilesInDir n depth :
  linksOf (cleanLockFilesInDir depth n) = linksOf n.
Proof.
  revert depth. induction n as [c a|entries IH|] using node_induction; intros depth.
  - done.
  - cbn [cleanLockFilesInDir]. destruct (3 <? depth)%nat; [done|].
    cbn [linksOf].
    induction IH as [|[name d] entries Hd _ IHentries]; [done|].
    cbn [flat_map]. rewrite flat_map_app, IHentries. f_equal.
    cbn [fst snd] in *. destruct d as [[c a|sub|]|]; unfold cleanEntry; cbn [fst snd].
    + by destruct (isLockFile name && forceUnlink a).
    + cbn [flat_map]. rewrite app_nil_r. cbn [fst snd]. by rewrite (Hd (Dir sub) eq_refl).
    + done.
    + done.
  - done.
Qed.


Lemma unlinkedAt_true depth path :
  unlinkedAt depth path = true
  ↔ path ≠ [] ∧ (depth + length path ≤ 4)%nat ∧ isLockFile (fileName path) = true.
Proof.
  revert depth. induction path as [|name rest IH]; intros depth.
  - cbn. split; [done | by intros []].
  - cbn [unlinkedAt length]. destruct (3 <? depth)%nat eqn:E.
    + apply Nat.ltb_lt in E. cbn. split; [done | intros (_ & H & _); lia].
    + apply Nat.ltb_ge in E. cbn [negb andb]. destruct rest as [|name' rest'].
      * cbn. split; [intros H; split_and!; [done | lia | done] | by intros (_ & _ & H)].
      * rewrite IH. unfold fileName. cbn [length List.last].
        split; intros (H1 & H2 & H3); (split_and!; [done | lia | done]).
Qed.

Lemma isLockFile_no_name : isLockFile (fileName []) = false.
Proof. reflexivity. Qed.

Lemma forceUnlink_false a : forceUnlink a = false ↔ a = Locked.
Proof. by destruct a. Qed.

(** A file is left by the cleanup exactly if it was there and is not a
    lock-named file within four names of the directory cleaned, or
    cannot be unlinked. *)
Lemma In_filesOf_cleanLockFilesInDir n path c a :
  In (path, c, a) (filesOf (cleanLockFilesInDir 0 n))
  ↔ In (path, c, a) (filesOf n)
    ∧ ((length path ≤ 4)%nat → isLockFile (fileName path) = true → a = Locked).
Proof.
  rewrite filesOf_cleanLockFilesInDir, filter_In. cbn [fst snd].
  rewrite negb_true_iff, andb_false_iff, forceUnlink_false, <- not_true_iff_false,
    unlinkedAt_true.
  split; intros [Hin H]; (split; [done|]).
  - intros Hlen Hlock. destruct H as [H|H]; [|done].
    destruct path as [|name rest]; [by rewrite isLockFile_no_name in Hlock|].
    destruct H. split_and!; [done | cbn in *; lia | done].
  - destruct (decide (a = Locked)) as [->|Ha]; [by right|]. left.
    intros (_ & Hlen & Hlock). apply Ha, H; [lia | done].
Qed.

(** ** [rmSync] *)

(** Either all entries are removed, or the removal stops at one of
    them, which is left with what could not be removed of it, as are
    the entries after it. *)
Lemma rmEntries_inv (rm : node → option node) entries :
  rmEntries rm entries = []
  ∨ ∃ pre name d leftover rest,
      entries = pre ++ (name, Some d) :: rest
      ∧ rm d = Some leftover
      ∧ rmEntries rm entries = (name, Some leftover) :: rest.
Proof.
  induction entries as [|[name [d|]] entries IH]; [by left| |].
  - cbn [rmEntries]. destruct (rm d) as [leftover|] eqn:E.
    + right. by exists [], name, d, leftover, entries.
    + destruct IH as [IH|(pre & name' & d' & leftover & rest & -> & Hrm & IH)]; [by left|].
      right. by exists ((name, Some d) :: pre), name', d', leftover, rest.
  - cbn [rmEntries].
    destruct IH as [IH|(pre & name' & d' & leftover & rest & -> & Hrm & IH)]; [by left|].
    right. by exists ((name, None) :: pre), name', d', leftover, rest.
Qed.

Lemma rmSync_Dir entries leftover :
  rmSync (Dir entries) = Some leftover →
  ∃ pre name d d' rest,
    entries = pre ++ (name, Some d) :: rest
    ∧ rmSync d = Some d'
    ∧ leftover = Dir ((name, Some d') :: rest).
Proof.
  cbn [rmSync].
  destruct (rmEntries_inv rmSync entries)
    as [->|(pre & name & d & d' & rest & -> & Hrm & ->)]; [done|].
  intros [= <-]. by exists pre, name, d, d', rest.
Qed.

Lemma rmSync_File c a leftover :
  rmSync (File c a) = Some leftover → leftover = File c a ∧ a ≠ Removable.
Proof. destruct a; cbn; [done|by intros [= <-]..]. Qed.

(** What [rmSync] could not remove it cannot remove at a second try. *)
Lemma rmSync_idem n leftover : rmSync n = Some leftover → rmSync leftover = Some leftover.
Proof.
  revert leftover.
  induction n as [c a|entries IH|] using node_induction; intros leftover H.
  - apply rmSync_File in H as [-> Ha]. by destruct a.
  - apply rmSync_Dir in H as (pre & name & d & d' & rest & -> & Hrm & ->).
    assert (rmSync d' = Some d') as Hd'.
    { eapply (proj1 (Forall_forall _ _) IH (name, Some d)); [|done|done].
      apply elem_of_app. right. by left. }
    cbn [rmSync rmEntries]. by rewrite Hd'.
  - by injection H as <-.
Qed.


(** What [rmSync] leaves of a directory in which the lock cleanup
    finds nothing gives the lock cleanup nothing either. *)
Lemma rmSync_settled n depth leftover :
  settled depth n = true → rmSync n = Some leftover → settled depth leftover = true.
Proof.
  revert depth leftover.
  induction n as [c a|entries IH|] using node_induction; intros depth leftover Hs H.
  - by apply rmSync_File in H as [-> _].
  - apply rmSync_Dir in H as (pre & name & d & d' & rest & -> & Hrm & ->).
    cbn [settled] in *. destruct (3 <? depth)%nat; [done|]. cbn [orb] in *.
    rewrite forallb_app in Hs. apply andb_true_iff in Hs as [_ Hs].
    cbn [forallb fst snd] in *. apply andb_true_iff in Hs as [Hd Hrest].
    rewrite Hrest, andb_true_r.
    destruct d as [c a|sub|].
    + by apply rmSync_File in Hrm as [-> _].
    + pose proof Hrm as Hrm'.
      apply rmSync_Dir in Hrm' as (? & ? & ? & ? & ? & _ & _ & ->).
      eapply (proj1 (Forall_forall _ _) IH (name, Some (Dir sub))); [|done|done|done].
      apply elem_of_app. right. by left.
    + by injection Hrm as <-.
  - by injection H as <-.
Qed.

(** What [rmSync] leaves of a directory is a directory. *)
Lemma rmSync_isDir n leftover :
  rmSync n = Some leftover →
  match n with
  | File _ _ => True
  | Dir _ | Unreadable =>
      match leftover with File _ _ => False | Dir _ | Unreadable => True end
  end.
Proof.
  destruct n as [c a|entries|]; [done| |by intros [= <-]].
  intros H. by apply rmSync_Dir in H as (? & ? & ? & ? & ? & _ & _ & ->).
Qed.

(** ** The profile cleaning of [startWhatsAppClient] *)

Lemma removeEntry_kept e : keptAtTop e.1 = true → removeEntry e = [e].
Proof.
  unfold keptAtTop, removeEntry. intros H. apply negb_true_iff in H. by rewrite H.
Qed.

(** What the profile cleaning does to an entry that it does not keep:
    a file that can be unlinked goes, any other file and an entry on
    which [statSync] throws stay, a directory goes or is left with
    what [rmSync] left of it. *)
Lemma removeEntry_cases e e' :
  In e' (removeEntry e) →
  e' = e ∧ (keptAtTop e.1 = true
            ∨ e.2 = None
            ∨ ∃ c a, e.2 = Some (File c a) ∧ a ≠ Removable)
  ∨ ∃ d leftover,
      keptAtTop e.1 = false
      ∧ e.2 = Some d ∧ rmSync d = Some leftover ∧ e' = (e.1, Some leftover)
      ∧ match d with File _ _ => False | Dir _ | Unreadable => True end.
Proof.
  unfold removeEntry, keptAtTop.
  destruct (isBrowserProfile e.1 && negb (isSessionToken e.1)) eqn:Hk;
    [|intros [<-|[]]; left; by auto].
  destruct e as [name [[c a|sub|]|]]; cbn [fst snd] in *.
  - destruct a; [done| |]; intros [<-|[]]; left; (split; [done|]); right; right;
      by eexists _, _.
  - destruct (rmSync (Dir sub)) as [leftover|] eqn:E; [|done]. intros [<-|[]].
    right. by exists (Dir sub), leftover.
  - intros [<-|[]]. right. by exists Unreadable, Unreadable.
  - intros [<-|[]]. left. by auto.
Qed.


(** What the profile cleaning passed over it passes over at a second
    try. *)
Lemma removeEntry_idem e e' : In e' (removeEntry e) → removeEntry e' = [e'].
Proof.
  intros H. destruct (removeEntry_cases _ _ H)
    as [[-> Hwhy]|(d & leftover & Hk & Hd & Hrm & -> & Hdir)].
  - destruct Hwhy as [Hk|[Hnone|(c & a & Hfile & Ha)]].
    + by apply removeEntry_kept.
    + unfold removeEntry. rewrite Hnone. by destruct (_ && _).
    + unfold removeEntry. rewrite Hfile. destruct (_ && _); [|done]. by destruct a.
  - unfold removeEntry, keptAtTop in *. cbn [fst snd]. apply negb_false_iff in Hk.
    rewrite Hk. pose proof (rmSync_idem _ _ Hrm) as Hidem.
    pose proof (rmSync_isDir _ _ Hrm) as Hleft.
    destruct d as [c a|sub|]; [done|..]; destruct leftover as [c' a'|sub'|]; try done;
      by rewrite Hidem.
Qed.

Lemma removeBrowserProfile_idem n :
  removeBrowserProfile (removeBrowserProfile n) = removeBrowserProfile n.
Proof.
  destruct n as [c a|entries|]; [done| |done]. cbn [removeBrowserProfile]. f_equal.
  apply flat_map_singletons. intros e' He'.
  apply in_flat_map in He' as (e & _ & He'). by eapply removeEntry_idem.
Qed.

(** The profile cleaning brings back nothing for the lock cleanup. *)
Lemma removeBrowserProfile_settled n :
  settled 0 n = true → settled 0 (removeBrowserProfile n) = true.
Proof.
  destruct n as [c a|entries|]; [done| |done].
  cbn [removeBrowserProfile settled Nat.ltb Nat.leb orb]. intros H.
  apply forallb_forall. intros e' He'. apply in_flat_map in He' as (e & He & He').
  pose proof (proj1 (forallb_forall _ _) H e He) as Hcond.
  destruct (removeEntry_cases _ _ He')
    as [[-> _]|(d & leftover & _ & Hd & Hrm & -> & Hdir)]; [done|].
  destruct e as [name o]. cbn [fst snd] in *. subst o.
  pose proof (rmSync_isDir _ _ Hrm) as Hleft.
  assert (settled 1 d = true) as Hsd by by destruct d.
  pose proof (rmSync_settled _ _ _ Hsd Hrm) as Hsl.
  destruct d as [c a|sub|]; [done|..]; by destruct leftover.
Qed.

(** The last cleanup of [prepareProfile] finds nothing to do. *)
Lemma prepareProfile_Some n :
  prepareProfile (Some n) = Some (removeBrowserProfile (cleanLockFilesInDir 0 n)).
Proof.
  unfold prepareProfile, cleanupChromiumLockFiles. cbn [fmap option_fmap option_map].
  f_equal. apply settled_fixed, removeBrowserProfile_settled, settled_cleanLockFilesInDir.
Qed.






End MoreProfileFacts.

(** X4.  [cleanupChromiumLockFiles] removes no directory and no entry
    on which [statSync] throws, and the files it leaves are exactly the
    files that were there except those that have a lock name, lie at
    most four names below the profile directory (the file in it, or in
    a directory up to three levels down) and can be unlinked, at once
    or after a change of mode; every other file keeps its path and its
    bytes. *)
Theorem cleanupChromiumLockFiles_exact (n : node) :
  ∃ n', cleanupChromiumLockFiles (Some n) = Some n'
        ∧ dirsOf n' = dirsOf n
        ∧ linksOf n' = linksOf n
        ∧ ∀ path c a,
            In (path, c, a) (filesOf n')
            ↔ In (path, c, a) (filesOf n)
              ∧ ((length path ≤ 4)%nat → isLockFile (fileName path) = true →
                 a = Locked).
Proof.
  exists (cleanLockFilesInDir 0 n). split_and!.
  - reflexivity.
  - apply dirsOf_cleanLockFilesInDir.
  - apply linksOf_cleanLockFilesInDir.
  - intros path c a. apply In_filesOf_cleanLockFilesInDir.
Qed.


(** X5.  Cleaning a cleaned profile changes nothing: the three
    cleanups in a row of a retry do what one does. *)
Theorem cleanupChromiumLockFiles_idempotent (profile : option node) :
  cleanupChromiumLockFiles (cleanupChromiumLockFiles profile)
  = cleanupChromiumLockFiles profile
  ∧ cleanupChromiumLockFiles
      (cleanupChromiumLockFiles (cleanupChromiumLockFiles profile))
    = cleanupChromiumLockFiles profile.
Proof.
  assert (cleanupChromiumLockFiles (cleanupChromiumLockFiles profile)
          = cleanupChromiumLockFiles profile) as H.
  { destruct profile as [n|]; [|done]. cbn. by rewrite cleanLockFilesInDir_idem. }
  split; [exact H|]. by rewrite H, H.
Qed.


Lemma prepareProfile_twice (profile : option node) :
  prepareProfile (prepareProfile profile) = prepareProfile profile.
Proof.
  destruct profile as [n|]; [|done].
  rewrite !prepareProfile_Some. f_equal.
  rewrite (settled_fixed (removeBrowserProfile (cleanLockFilesInDir 0 n)))
    by apply removeBrowserProfile_settled, settled_cleanLockFilesInDir.
  apply removeBrowserProfile_idem.
Qed.


(* ===================================================================== *)
(** * More on session acquisition                                         *)
(* ===================================================================== *)

Section MoreAcquisitionFacts.

Variable create : Z → option node → create_result * option node.

(** [create] only ever gets a prepared profile directory. *)
Lemma attemptLoop_prepared attempts lastError profile trace :
  attemptLoop (λ attempt p, create attempt (prepareProfile p))
    attempts lastError profile trace
  = attemptLoop create attempts lastError profile trace.
Proof.
  revert lastError profile trace.
  induction attempts as [|attempt rest IH]; intros lastError profile trace; [done|].
  cbn [attemptLoop]. rewrite prepareProfile_twice.
  destruct (create attempt (prepareProfile profile)) as [[c|message] profile1]; [done|].
  by rewrite !IH.
Qed.






End MoreAcquisitionFacts.






(** X11.  [create] is only ever called on a prepared profile
    directory: an oracle that prepares its argument once more gives the
    same acquisition, result, profile and events. *)
Theorem startWhatsAppClient_prepares
    (create : Z → option node → create_result * option node)
    (profile : option node) :
  startWhatsAppClient (λ attempt p, create attempt (prepareProfile p)) profile
  = startWhatsAppClient create profile.
Proof. apply attemptLoop_prepared. Qed.

(* ===================================================================== *)
(** * More on the tick run alone                                          *)
(* ===================================================================== *)

Section MoreTickFacts.

Variable MAX_ATTEMPTS : Z.

Implicit Types (w : outcomes) (p : worker) (db : store) (c : option Whatsapp)
  (id phone message : string) (job u : job).

(** The jobs table after the send and its updates: the row [id] may be
    rewritten, no other. *)
Lemma sendAndRecord_jobs w c id u whatsappId db :
  ∃ f, outbox_jobs (sendAndRecord MAX_ATTEMPTS w c id u whatsappId db).1
       = applyIfOk (jobUpdateReply w) (alter f id) (outbox_jobs db)
       ∧ (f = withStatus sent
          ∨ (∃ thrownMessage, f = failureUpdate MAX_ATTEMPTS u thrownMessage)
          ∨ f = (λ j, j)).
Proof.
  unfold sendAndRecord, updateById.
  destruct (match c with Some _ => sendReply w | None => _ end) as [|[|thrownMessage]].
  - exists (withStatus sent). split; [|by left].
    by destruct (truthy (message_id u)).
  - exists (λ j, j). split; [|by auto]. cbn [fst].
    destruct (jobUpdateReply w); cbn [applyIfOk]; [|done]. by rewrite alter_id.
  - exists (failureUpdate MAX_ATTEMPTS u thrownMessage). split; [|by eauto].
    by destruct (if MAX_ATTEMPTS <=? _ then _ else _).
Qed.

(** The messages table after the send and its updates: the row of the
    linked message may be rewritten, no other. *)
Lemma sendAndRecord_messages w c id u whatsappId db :
  messages (sendAndRecord MAX_ATTEMPTS w c id u whatsappId db).1 = messages db
  ∨ ∃ mid text,
      truthy (message_id u) = Some mid
      ∧ messages (sendAndRecord MAX_ATTEMPTS w c id u whatsappId db).1
        = applyIfOk (messageUpdateReply w) (alter (λ _, text) mid) (messages db).
Proof.
  unfold sendAndRecord, updateById.
  destruct (match c with Some _ => sendReply w | None => _ end) as [|[|thrownMessage]].
  - destruct (truthy (message_id u)) as [mid|] eqn:E; [|by left].
    right. by exists mid, "sent".
  - by left.
  - destruct (MAX_ATTEMPTS <=? _); [|by left].
    destruct (truthy (message_id u)) as [mid|] eqn:E; [|by left].
    right. by exists mid, "failed".
Qed.

(** The calls of [sendText] of the send: one with a client, none
    without. *)
Lemma sendAndRecord_calls w c id u whatsappId db :
  (sendAndRecord MAX_ATTEMPTS w c id u whatsappId db).2
  = match c with Some _ => [(whatsappId, body u)] | None => [] end.
Proof.
  unfold sendAndRecord.
  destruct (match c with Some _ => sendReply w | None => _ end) as [|[|thrownMessage]].
  - by destruct (truthy (message_id u)).
  - done.
  - by destruct (if MAX_ATTEMPTS <=? _ then _ else _).
Qed.

(** The cases of the outer [try] block: nothing is claimed and nothing
    changes, or a queued job is claimed and, if it has a phone, sent. *)
Lemma tickBody_cases w c db :
  (tickBody MAX_ATTEMPTS w c db = (db, [])
   ∧ (queryReply w ≠ Ok ∨ claimReply w ≠ Ok
      ∨ selectOldestQueued (outbox_jobs db) = None))
  ∨ ∃ id job,
      queryReply w = Ok ∧ claimReply w = Ok
      ∧ selectOldestQueued (outbox_jobs db) = Some (id, job)
      ∧ let claimed := withAttempts (orElse (attempts job) 0 + 1)
                                    (withStatus processing job) in
        let db1 := withJobs (<[id := claimed]> (outbox_jobs db)) db in
        match to_phone_e164 job with
        | None => tickBody MAX_ATTEMPTS w c db = (db1, [])
        | Some phone =>
            tickBody MAX_ATTEMPTS w c db
            = sendAndRecord MAX_ATTEMPTS w c id claimed
                (e164ToWhatsAppId (normalizePhone phone)) db1
        end.
Proof.
  unfold tickBody. destruct (queryReply w) as [|e] eqn:Hq; [|left; by auto].
  destruct (selectOldestQueued (outbox_jobs db)) as [[id job]|] eqn:Hsel;
    [|left; by auto].
  destruct (claimReply w) as [|e] eqn:Hc; [|left; by auto].
  right. exists id, job. split_and!; [done..|].
  apply selectOldestQueued_Some in Hsel as [Hj Hst].
  rewrite (claimUpdate_queued _ _ _ _ Hj Hst).
  cbn [to_phone_e164 withAttempts withStatus].
  by destruct (to_phone_e164 job).
Qed.

End MoreTickFacts.

(** X12.  A tick whose query fails, that finds no queued job, or
    whose claim fails, leaves the store as it is and calls no
    [sendText]; its flag is down at the end. *)
Theorem tick_without_claim (MAX_ATTEMPTS : Z) (w : outcomes) (p : worker) (db : store) :
  isProcessingJob p = false →
  queryReply w ≠ Ok ∨ claimReply w ≠ Ok
  ∨ selectOldestQueued (outbox_jobs db) = None →
  processOutboundJob MAX_ATTEMPTS w p db = mkResult (mkWorker (client p) false) db [].
Proof.
  intros Hflag Hno. unfold processOutboundJob. rewrite Hflag.
  destruct (tickBody_cases MAX_ATTEMPTS w (client p) db)
    as [[-> _]|(id & job & Hq & Hc & Hsel & _)]; [done|].
  destruct Hno as [H|[H|H]]; congruence.
Qed.

Lemma tick_without_claim_witness :
  processOutboundJob 5 (mkOutcomes (Err "fetch failed") Ok Sent Ok Ok)
    Samples.readyWorker Samples.db1
  = mkResult Samples.readyWorker Samples.db1 [].
Proof.
  apply (tick_without_claim 5 (mkOutcomes (Err "fetch failed") Ok Sent Ok Ok)
           Samples.readyWorker Samples.db1 eq_refl).
  left. discriminate.
Defined.

(** X13.  A tick with a client whose calls all succeed sends the body
    of the selected job once, to the channel address of its phone, and
    leaves that job [sent] with its attempts raised by one, the linked
    message, if the job names one, [sent], and nothing else changed. *)
Theorem tick_sends_and_records (MAX_ATTEMPTS : Z) (w : outcomes) (p : worker)
    (db : store) (cl : Whatsapp) (id : string) (job : job) (phone : string) :
  isProcessingJob p = false →
  client p = Some cl →
  queryReply w = Ok → claimReply w = Ok → sendReply w = Sent →
  jobUpdateReply w = Ok → messageUpdateReply w = Ok →
  selectOldestQueued (outbox_jobs db) = Some (id, job) →
  to_phone_e164 job = Some phone →
  let result := processOutboundJob MAX_ATTEMPTS w p db in
  sends result = [(e164ToWhatsAppId (normalizePhone phone), body job)]
  ∧ outbox_jobs (store_after result)
    = <[id := withStatus sent (withAttempts (orElse (attempts job) 0 + 1) job)]>
        (outbox_jobs db)
  ∧ messages (store_after result)
    = match truthy (message_id job) with
      | Some mid => alter (λ _, "sent") mid (messages db)
      | None => messages db
      end.
Proof.
  intros Hflag Hcl Hq Hc Hs Hju Hmu Hsel Hphone result.
  unfold result, processOutboundJob. rewrite Hflag.
  rewrite (tickBody_claimed _ _ _ _ _ _ _ Hq Hc Hsel Hphone), Hcl.
  unfold sendAndRecord, updateById. rewrite Hs, Hju, Hmu.
  cbn [message_id withAttempts withStatus body applyIfOk].
  destruct (truthy (message_id job));
    cbn [sends store_after outbox_jobs messages withJobs withMessages];
    by rewrite alter_insert_eq.
Qed.

Lemma tick_sends_and_records_witness :
  sends (processOutboundJob 5 Samples.allOk Samples.readyWorker Samples.db1)
  = [("15551234567@c.us", "hi")]
  ∧ outbox_jobs (store_after (processOutboundJob 5 Samples.allOk Samples.readyWorker
                                                 Samples.db1))
    = {[ "job-1" := Samples.job1Sent ]}.
Proof.
  assert (selectOldestQueued (outbox_jobs Samples.db1) = Some ("job-1", Samples.job1))
    as Hsel by (vm_compute; reflexivity).
  destruct (tick_sends_and_records 5 Samples.allOk Samples.readyWorker Samples.db1
              Samples.theClient "job-1" Samples.job1 "+15551234567"
              eq_refl eq_refl eq_refl eq_refl eq_refl eq_refl eq_refl Hsel eq_refl)
    as (H1 & H2 & _).
  split; [exact H1|]. rewrite H2. vm_compute. reflexivity.
Defined.

(** The rows a tick leaves alone. *)
Lemma tick_frame_rows (MAX_ATTEMPTS : Z) (w : outcomes) (p : worker) (db : store) :
  let after := store_after (processOutboundJob MAX_ATTEMPTS w p db) in
  dom (outbox_jobs after) = dom (outbox_jobs db)
  ∧ dom (messages after) = dom (messages db)
  ∧ (∀ id', (∀ job, selectOldestQueued (outbox_jobs db) ≠ Some (id', job)) →
            outbox_jobs after !! id' = outbox_jobs db !! id')
  ∧ (∀ mid', (∀ id job, selectOldestQueued (outbox_jobs db) = Some (id, job) →
                        truthy (message_id job) ≠ Some mid') →
             messages after !! mid' = messages db !! mid').
Proof.
  intros after. unfold after, processOutboundJob.
  destruct (isProcessingJob p); [done|].
  destruct (tickBody_cases MAX_ATTEMPTS w (client p) db)
    as [[-> _]|(id & job & Hq & Hc & Hsel & Hbody)]; [done|].
  pose proof (selectOldestQueued_Some _ _ _ Hsel) as [Hj _].
  cbn zeta in Hbody. destruct (to_phone_e164 job) as [phone|].
  - rewrite Hbody.
    match goal with
    | |- context [sendAndRecord ?m ?w ?c ?i ?u ?a ?d] =>
        destruct (sendAndRecord_jobs m w c i u a d) as (f & Hjobs & _);
        pose proof (sendAndRecord_messages m w c i u a d) as Hmsgs;
        destruct (sendAndRecord m w c i u a d) as [db' calls]
    end.
    cbn [fst store_after outbox_jobs messages withJobs] in *.
    assert (dom (messages db') = dom (messages db)
            ∧ ∀ mid', truthy (message_id job) ≠ Some mid' →
                      messages db' !! mid' = messages db !! mid') as [Hdm Hm].
    { destruct Hmsgs as [->|(mid & text & Hmid & ->)]; [done|].
      cbn [message_id withAttempts withStatus] in Hmid.
      destruct (messageUpdateReply w); cbn [applyIfOk]; [|done].
      split; [apply dom_alter_L|].
      intros mid' Hne. apply lookup_alter_ne. congruence. }
    split_and!.
    + rewrite Hjobs. destruct (jobUpdateReply w); cbn [applyIfOk];
        rewrite ?dom_alter_L; by apply dom_insert_lookup_L.
    + done.
    + intros id' Hne. assert (id ≠ id') as Hid by (intros ->; by eapply Hne).
      rewrite Hjobs. destruct (jobUpdateReply w); cbn [applyIfOk];
        rewrite ?lookup_alter_ne by done; by rewrite lookup_insert_ne.
    + intros mid' Hne. apply Hm. by eapply Hne.
  - rewrite Hbody. cbn [store_after outbox_jobs messages withJobs].
    split_and!; [by apply dom_insert_lookup_L | done | | done].
    intros id' Hne. assert (id ≠ id') as Hid by (intros ->; by eapply Hne).
    by rewrite lookup_insert_ne.
Qed.

(** X14.  Whatever the replies, a tick neither adds nor removes a row
    of either table, rewrites no job but the one its query selected,
    and no message but the one that job names. *)
Theorem tick_frame (MAX_ATTEMPTS : Z) (w : outcomes) (p : worker) (db : store) :
  let after := store_after (processOutboundJob MAX_ATTEMPTS w p db) in
  dom (outbox_jobs after) = dom (outbox_jobs db)
  ∧ dom (messages after) = dom (messages db)
  ∧ (∀ id', (∀ job, selectOldestQueued (outbox_jobs db) ≠ Some (id', job)) →
            outbox_jobs after !! id' = outbox_jobs db !! id')
  ∧ (∀ mid', (∀ id job, selectOldestQueued (outbox_jobs db) = Some (id, job) →
                        truthy (message_id job) ≠ Some mid') →
             messages after !! mid' = messages db !! mid').
Proof. apply tick_frame_rows. Qed.

(** X15.  A queued job whose phone is null is claimed and then dropped
    by the [TypeError] of [normalizePhone]: no [sendText], no
    [last_error], and the row is left [processing] with its attempts
    raised, where no later query selects it. *)
Theorem tick_null_phone (MAX_ATTEMPTS : Z) (w : outcomes) (p : worker) (db : store)
    (id : string) (job : job) :
  isProcessingJob p = false →
  queryReply w = Ok → claimReply w = Ok →
  selectOldestQueued (outbox_jobs db) = Some (id, job) →
  to_phone_e164 job = None →
  let claimed := withAttempts (orElse (attempts job) 0 + 1) (withStatus processing job) in
  let result := processOutboundJob MAX_ATTEMPTS w p db in
  result = mkResult (mkWorker (client p) false)
                    (withJobs (<[id := claimed]> (outbox_jobs db)) db) []
  ∧ ∀ j, selectOldestQueued (outbox_jobs (store_after result)) ≠ Some (id, j).
Proof.
  intros Hflag Hq Hc Hsel Hphone claimed result.
  assert (result = mkResult (mkWorker (client p) false)
                     (withJobs (<[id := claimed]> (outbox_jobs db)) db) []) as Hres.
  { unfold result, processOutboundJob. rewrite Hflag.
    destruct (tickBody_cases MAX_ATTEMPTS w (client p) db)
      as [[_ [H|[H|H]]]|(id' & job' & _ & _ & Hsel' & Hbody)]; [congruence..|].
    rewrite Hsel in Hsel'. injection Hsel' as <- <-.
    cbn zeta in Hbody. rewrite Hphone in Hbody. by rewrite Hbody. }
  split; [done|]. rewrite Hres. cbn [store_after outbox_jobs withJobs].
  intros j Hj. apply selectOldestQueued_Some in Hj as [Hj Hst].
  rewrite lookup_insert_eq in Hj. by injection Hj as <-.
Qed.

Lemma tick_null_phone_witness :
  rowOfStore "job-3" (store_after (processOutboundJob 5 Samples.allOk
                                     Samples.readyWorker Samples.db3))
  = Some (processing, Some 1, None).
Proof.
  assert (selectOldestQueued (outbox_jobs Samples.db3) = Some ("job-3", Samples.job3))
    as Hsel by (vm_compute; reflexivity).
  destruct (tick_null_phone 5 Samples.allOk Samples.readyWorker Samples.db3
              "job-3" Samples.job3 eq_refl eq_refl eq_refl Hsel eq_refl) as [H _].
  rewrite H. vm_compute. reflexivity.
Defined.

(** X16.  If every queued job has attempts left (a count that is null,
    or not negative and below [MAX_ATTEMPTS]), the same holds after a
    tick, whatever the replies: a job that used its last attempt is not
    put back in the queue. *)
Theorem tick_keeps_ceiling (MAX_ATTEMPTS : Z) (w : outcomes) (p : worker) (db : store) :
  underCeiling MAX_ATTEMPTS (outbox_jobs db) →
  underCeiling MAX_ATTEMPTS
    (outbox_jobs (store_after (processOutboundJob MAX_ATTEMPTS w p db))).
Proof.
  intros Hinv. unfold processOutboundJob. destruct (isProcessingJob p); [done|].
  destruct (tickBody_cases MAX_ATTEMPTS w (client p) db)
    as [[-> _]|(id & job & Hq & Hc & Hsel & Hbody)]; [done|].
  pose proof (selectOldestQueued_Some _ _ _ Hsel) as [Hj Hst].
  assert (0 < orElse (attempts job) 0 + 1) as Hpos.
  { apply currentAttempts_positive. intros a Ha. by apply (Hinv id job Hj Hst a). }
  cbn zeta in Hbody.
  set (claimed := withAttempts (orElse (attempts job) 0 + 1) (withStatus processing job))
    in *.
  assert (underCeiling MAX_ATTEMPTS (<[id := claimed]> (outbox_jobs db))) as Hclaimed.
  { intros id' j'. destruct (decide (id = id')) as [<-|Hne].
    - rewrite lookup_insert_eq. by intros [= <-].
    - rewrite lookup_insert_ne by done. apply Hinv. }
  destruct (to_phone_e164 job) as [phone|]; rewrite Hbody; [|done].
  match goal with
  | |- context [sendAndRecord ?m ?w ?c ?i ?u ?a ?d] =>
      destruct (sendAndRecord_jobs m w c i u a d) as (f & Hjobs & Hf);
      destruct (sendAndRecord m w c i u a d) as [db' calls]
  end.
  cbn [fst store_after outbox_jobs withJobs] in *. rewrite Hjobs.
  destruct (jobUpdateReply w); cbn [applyIfOk]; [|done].
  rewrite alter_insert_eq. intros id' j'.
  destruct (decide (id = id')) as [<-|Hne];
    [|rewrite lookup_insert_ne by done; apply Hinv].
  rewrite lookup_insert_eq. intros [= <-].
  destruct Hf as [->|[[thrownMessage ->]| ->]]; [done| |done].
  unfold failureUpdate. cbn [attempts withAttempts withStatus claimed].
  rewrite (orElse_positive _ _ Hpos).
  destruct (MAX_ATTEMPTS <=? _) eqn:E; [by destruct thrownMessage|]. apply Z.leb_gt in E.
  intros _ a Ha. assert (a = orElse (attempts job) 0 + 1) as ->; [|lia].
  destruct thrownMessage; by injection Ha as <-.
Qed.

Lemma tick_keeps_ceiling_witness :
  underCeiling 2 (outbox_jobs Samples.db2)
  ∧ underCeiling 2
      (outbox_jobs (store_after (processOutboundJob 2 Samples.sendThrows
                                   Samples.readyWorker Samples.db2))).
Proof.
  assert (underCeiling 2 (outbox_jobs Samples.db2)) as H.
  { intros id j Hj _ a Ha. cbn in Hj.
    apply lookup_singleton_Some in Hj as [_ <-]. injection Ha as <-. lia. }
  split; [exact H|].
  exact (tick_keeps_ceiling 2 Samples.sendThrows Samples.readyWorker Samples.db2 H).
Defined.

(** X17.  Whatever the replies, a tick calls [sendText] at most once,
    never without a client, and only for the job its query selected:
    with the body of that job, at the channel address of its phone. *)
Theorem tick_sends_at_most_once (MAX_ATTEMPTS : Z) (w : outcomes) (p : worker)
    (db : store) :
  let result := processOutboundJob MAX_ATTEMPTS w p db in
  (length (sends result) ≤ 1)%nat
  ∧ (client p = None → sends result = [])
  ∧ (∀ address text, In (address, text) (sends result) →
       ∃ id job phone,
         selectOldestQueued (outbox_jobs db) = Some (id, job)
         ∧ to_phone_e164 job = Some phone
         ∧ address = e164ToWhatsAppId (normalizePhone phone)
         ∧ text = body job).
Proof.
  intros result. unfold result, processOutboundJob.
  destruct (isProcessingJob p); [by split_and!; [cbn; lia | |]|].
  destruct (tickBody_cases MAX_ATTEMPTS w (client p) db)
    as [[-> _]|(id & job & Hq & Hc & Hsel & Hbody)];
    [by split_and!; [cbn; lia | |]|].
  cbn zeta in Hbody. destruct (to_phone_e164 job) as [phone|] eqn:Hphone;
    rewrite Hbody; [|by split_and!; [cbn; lia | |]].
  match goal with
  | |- context [sendAndRecord ?m ?w ?c ?i ?u ?a ?d] =>
      pose proof (sendAndRecord_calls m w c i u a d) as Hcalls;
      destruct (sendAndRecord m w c i u a d) as [db' calls]
  end.
  cbn [snd sends] in *. subst calls. destruct (client p) as [cl|].
  - split_and!; [cbn; lia | done |].
    intros address text [[= <- <-]|[]]. by exists id, job, phone.
  - by split_and!; [cbn; lia | |].
Qed.

(** X18.  The job a tick works on is the oldest queued one: a row that
    differs after the tick was queued before it, and no queued row had
    an earlier [created_at]. *)
Theorem tick_takes_oldest (MAX_ATTEMPTS : Z) (w : outcomes) (p : worker) (db : store)
    (id : string) :
  outbox_jobs (store_after (processOutboundJob MAX_ATTEMPTS w p db)) !! id
  ≠ outbox_jobs db !! id →
  ∃ j, outbox_jobs db !! id = Some j ∧ oldestQueued j (outbox_jobs db).
Proof.
  intros Hchanged.
  destruct (selectOldestQueued (outbox_jobs db)) as [[id0 job]|] eqn:Hsel.
  - destruct (decide (id0 = id)) as [->|Hne].
    + pose proof (selectOldestQueued_Some _ _ _ Hsel) as [Hj Hst].
      exists job. split; [done|]. split; [done|].
      intros id' j'. by apply (selectOldestQueued_least _ _ _ _ _ Hsel).
    + destruct Hchanged.
      apply (proj1 (proj2 (proj2 (tick_frame_rows MAX_ATTEMPTS w p db)))).
      intros job0 H. rewrite Hsel in H. congruence.
  - destruct Hchanged.
    apply (proj1 (proj2 (proj2 (tick_frame_rows MAX_ATTEMPTS w p db)))).
    intros job0 H. by rewrite Hsel in H.
Qed.

Lemma tick_takes_oldest_witness :
  ∃ j, outbox_jobs Samples.db4 !! "job-1" = Some j
       ∧ oldestQueued j (outbox_jobs Samples.db4).
Proof.
  apply (tick_takes_oldest 5 Samples.allOk Samples.readyWorker Samples.db4 "job-1").
  vm_compute. discriminate.
Defined.

(* ===================================================================== *)
(** * More on several workers on one store                                *)
(* ===================================================================== *)

Section MoreSystemFacts.

Variable MAX_ATTEMPTS : Z.

Implicit Types (s : system) (p : proc) (k : tick_state) (id : string).

Lemma sum_list_with_two {A} (f : A → nat) (l : list A) (n n' : nat) (x y : A) :
  l !! n = Some x → l !! n' = Some y → n ≠ n' →
  (f x + f y ≤ sum_list_with f l)%nat.
Proof.
  revert n n'. induction l as [|a l IH]; intros [|n] [|n'] Hx Hy Hne;
    try done; simpl in *.
  - injection Hx as ->.
    pose proof (sum_list_with_in y f l (list_elem_of_lookup_2 _ _ _ Hy)). lia.
  - injection Hy as ->.
    pose proof (sum_list_with_in x f l (list_elem_of_lookup_2 _ _ _ Hx)). lia.
  - assert (n ≠ n') as Hne' by congruence. specialize (IH n n' Hx Hy Hne'). lia.
Qed.

(** A row that is [processing] and owned by no invocation is left as
    it is by every step, and stays without an owner. *)
Lemma step_orphan s s' id j :
  Forall singleFlight (procs s) → exclusive s → step MAX_ATTEMPTS s s' →
  outbox_jobs (db s) !! id = Some j → status j = processing →
  owners id s = 0%nat →
  outbox_jobs (db s') !! id = Some j ∧ owners id s' = 0%nat.
Proof.
  intros Hall Hex Hstep Hj Hst Hfree.
  destruct Hstep as [s n p Hp|s n p i k r Hp Hk Hfit|s id0 j0 Hid Hj0]; cbn [db].
  - split; [done|].
    pose proof (owners_insert s n p (invoke p) (db s) id Hp) as Hsum.
    rewrite ownersIn_invoke in Hsum. lia.
  - pose proof (Forall_lookup_1 _ _ _ _ Hall Hp) as Hflight.
    destruct (singleFlight_lookup _ _ _ Hflight Hk) as (_ & Hi & ->).
    set (res := resume MAX_ATTEMPTS (client (vars p)) r k (db s)).
    pose proof (owners_insert s n p (settle p 0 res.1) res.2 id Hp) as Hsum.
    rewrite (ownersIn_settle _ _ _ _ Hi), Hi, ownersIn_singleton in Hsum.
    pose proof (owners_le s n p id Hp) as Hown.
    rewrite Hi, ownersIn_singleton in Hown. unfold ownsOpt in Hsum, Hown.
    assert (owned k ≠ Some id) as Hk0.
    { intros Hk0. rewrite (bool_decide_eq_true_2 _ Hk0) in Hown. lia. }
    rewrite (bool_decide_eq_false_2 _ Hk0) in Hsum.
    destruct (resume_effect MAX_ATTEMPTS (client (vars p)) r k (db s))
      as [[Hother Hnext]|(id1 & j1 & u1 & _ & Hj1 & Hq1 & _ & Hjobs & Hnext)].
    + fold res in Hother, Hnext. split; [by rewrite Hother|].
      assert (res.1 ≫= owned ≠ Some id) as Hnot
        by (destruct Hnext as [-> | [-> _]]; congruence).
      rewrite (bool_decide_eq_false_2 _ Hnot) in Hsum. lia.
    + fold res in Hjobs, Hnext.
      assert (id1 ≠ id) as Hne by (intros ->; congruence).
      split; [by rewrite Hjobs, lookup_insert_ne|].
      assert (res.1 ≫= owned ≠ Some id) as Hnot
        by (destruct Hnext as [-> | ->]; congruence).
      rewrite (bool_decide_eq_false_2 _ Hnot) in Hsum. lia.
  - cbn [outbox_jobs withJobs procs]. split; [|done].
    rewrite lookup_insert_ne; [done|]. congruence.
Qed.

(** No step removes a row, and no step of a worker adds one. *)
Lemma resume_dom c (a : answer) k db :
  dom (outbox_jobs (resume MAX_ATTEMPTS c a k db).2) = dom (outbox_jobs db)
  ∧ dom (messages (resume MAX_ATTEMPTS c a k db).2) = dom (messages db).
Proof.
  destruct k as [|id0 job|id0 u wid|id0 u|mid|id0 u message|mid];
    destruct a as [r|r]; cbn [resume]; try done.
  - destruct r; [|done]. by destruct (selectOldestQueued _) as [[? ?]|].
  - destruct r; [|done].
    destruct (claimUpdate id0 _ (outbox_jobs db)) as [jobs [u|]] eqn:E; [|done].
    apply claimUpdate_Some_inv in E as (j & Hj & _ & _ & ->).
    cbn [snd outbox_jobs messages withJobs]. split; [|done].
    by apply dom_insert_lookup_L.
  - by destruct r.
  - cbn [snd outbox_jobs messages withJobs]. split; [|done].
    destruct r; [apply dom_alter_L | done].
  - cbn [snd outbox_jobs messages withMessages]. split; [done|].
    destruct r; [apply dom_alter_L | done].
  - cbn [snd outbox_jobs messages withJobs]. split; [|done].
    destruct r; [apply dom_alter_L | done].
  - cbn [snd outbox_jobs messages withMessages]. split; [done|].
    destruct r; [apply dom_alter_L | done].
Qed.

Lemma step_dom s s' :
  step MAX_ATTEMPTS s s' →
  dom (outbox_jobs (db s)) ⊆ dom (outbox_jobs (db s'))
  ∧ dom (messages (db s')) = dom (messages (db s))
  ∧ length (procs s') = length (procs s).
Proof.
  intros [s0 n p Hp|s0 n p i k r Hp Hk Hfit|s0 id0 j0 Hid Hj0]; cbn [db procs].
  - by rewrite length_insert.
  - destruct (resume_dom (client (vars p)) r k (db s0)) as [-> ->].
    by rewrite length_insert.
  - cbn [outbox_jobs messages withJobs]. split_and!; [|done..].
    apply dom_insert_subseteq.
Qed.

End MoreSystemFacts.

(** X19.  In every state the workers can reach, two invocations in
    different processes never hold the same claimed job, and a job that
    an invocation holds is [processing] in the store. *)
Theorem one_owner_per_job (MAX_ATTEMPTS : Z) (s : system) (n n' : nat) (p p' : proc)
    (k k' : tick_state) (id : string) :
  reachable MAX_ATTEMPTS s →
  procs s !! n = Some p → procs s !! n' = Some p' → n ≠ n' →
  k ∈ inflight p → k' ∈ inflight p' →
  owned k = Some id →
  owned k' ≠ Some id
  ∧ ∃ j, outbox_jobs (db s) !! id = Some j ∧ status j = processing.
Proof.
  intros Hreach Hp Hp' Hne Hk Hk' Hown.
  pose proof (reachable_singleFlight _ _ Hreach) as Hall.
  destruct (reachable_exclusive _ _ Hreach id) as [Hle Hrow].
  apply list_elem_of_lookup in Hk as [i Hk], Hk' as [i' Hk'].
  destruct (singleFlight_lookup _ _ _ (Forall_lookup_1 _ _ _ _ Hall Hp) Hk)
    as (_ & Hi & _).
  destruct (singleFlight_lookup _ _ _ (Forall_lookup_1 _ _ _ _ Hall Hp') Hk')
    as (_ & Hi' & _).
  pose proof (sum_list_with_two (λ p, ownersIn id (inflight p)) (procs s)
                n n' p p' Hp Hp' Hne) as Hsum.
  fold (owners id s) in Hsum. cbn beta in Hsum.
  rewrite Hi, Hi', !ownersIn_singleton in Hsum. unfold ownsOpt in Hsum.
  rewrite (bool_decide_eq_true_2 _ Hown) in Hsum. split.
  - intros Hown'. rewrite (bool_decide_eq_true_2 _ Hown') in Hsum. lia.
  - apply Hrow. lia.
Qed.

Lemma one_owner_per_job_witness :
  ∃ j, outbox_jobs (db Samples.afterRace) !! "job-1" = Some j ∧ status j = processing.
Proof.
  assert (reachable 5 Samples.afterRace) as Hreach.
  { apply (run_reachable 5 (Samples.raceSchedule ++ [Timer 0]) Samples.twoWorkers).
    - repeat constructor.
    - vm_compute. reflexivity. }
  refine (proj2 (one_owner_per_job 5 Samples.afterRace 1 0
                   (mkProc (mkWorker (Some Samples.theClient) true) [Samples.sendingJob1])
                   (mkProc (mkWorker (Some Samples.theClient) true) [AwaitQuery])
                   Samples.sendingJob1 AwaitQuery "job-1" Hreach _ _ _ _ _ eq_refl)).
  - vm_compute. reflexivity.
  - vm_compute. reflexivity.
  - discriminate.
  - apply list_elem_of_singleton. reflexivity.
  - apply list_elem_of_singleton. reflexivity.
Defined.

(** X20.  A row that is [processing] while no invocation holds it (the
    row of a job with a null phone, or one whose final update was lost)
    is never changed again by any step of any worker: nothing takes an
    abandoned job back. *)
Theorem abandoned_job_stays (MAX_ATTEMPTS : Z) (s s' : system) (id : string) (j : job) :
  reachable MAX_ATTEMPTS s →
  rtc (step MAX_ATTEMPTS) s s' →
  outbox_jobs (db s) !! id = Some j →
  status j = processing →
  owners id s = 0%nat →
  outbox_jobs (db s') !! id = Some j ∧ owners id s' = 0%nat.
Proof.
  intros Hreach Hsteps Hj Hst Hfree.
  assert (reachable MAX_ATTEMPTS s'
          ∧ outbox_jobs (db s') !! id = Some j ∧ owners id s' = 0%nat) as [_ H];
    [|done].
  revert s' Hsteps. apply rtc_ind_r; [done|].
  intros s1 s2 _ Hstep (Hreach1 & Hj1 & Hfree1). split.
  - by eapply reachable_step.
  - eapply step_orphan; [| |done..].
    + by apply (reachable_singleFlight MAX_ATTEMPTS).
    + by apply (reachable_exclusive MAX_ATTEMPTS).
Qed.

Lemma abandoned_job_stays_witness :
  outbox_jobs (db Samples.afterAbandonLater) !! "job-3" = Some Samples.job3Claimed.
Proof.
  refine (proj1 (abandoned_job_stays 5 Samples.afterAbandon Samples.afterAbandonLater
                   "job-3" Samples.job3Claimed _ _ _ eq_refl _)).
  - apply (run_reachable 5 Samples.abandonSchedule Samples.oneWorker).
    + repeat constructor.
    + vm_compute. reflexivity.
  - apply (run_rtc 5 Samples.emptyTicks). vm_compute. reflexivity.
  - vm_compute. reflexivity.
  - vm_compute. reflexivity.
Defined.

(** X21.  No step removes a row of either table or adds a message row,
    and the set of workers stays the same: over any number of steps the
    job rows can only grow in number, by jobs put in from outside. *)
Theorem rows_are_never_deleted (MAX_ATTEMPTS : Z) (s s' : system) :
  rtc (step MAX_ATTEMPTS) s s' →
  dom (outbox_jobs (db s)) ⊆ dom (outbox_jobs (db s'))
  ∧ dom (messages (db s')) = dom (messages (db s))
  ∧ length (procs s') = length (procs s).
Proof.
  induction 1 as [s|s1 s2 s3 Hstep _ IH]; [done|].
  destruct (step_dom MAX_ATTEMPTS _ _ Hstep) as (H1 & H2 & H3).
  destruct IH as (IH1 & IH2 & IH3).
  split_and!; [by etrans | by rewrite IH2 | by rewrite IH3].
Qed.

Lemma rows_are_never_deleted_witness :
  dom (outbox_jobs (db Samples.afterHappyTick))
  ⊆ dom (outbox_jobs (db Samples.afterLater)).
Proof.
  refine (proj1 (rows_are_never_deleted 5 Samples.afterHappyTick Samples.afterLater _)).
  apply (run_rtc 5 Samples.laterSchedule). vm_compute. reflexivity.
Defined.

(* ===================================================================== *)
(** * The tick run alone as a schedule of one worker                      *)
(* ===================================================================== *)

Section ScheduleFacts.

Variable MAX_ATTEMPTS : Z.

Implicit Types (w : outcomes) (c : option Whatsapp) (db : store).







End ScheduleFacts.


(* ===================================================================== *)
(** * The inbound relay                                                   *)
(* ===================================================================== *)

Lemma truthy_Some (m : option string) (s : string) :
  truthy m = Some s → m = Some s ∧ s ≠ EmptyString.
Proof.
  destruct m as [s0|]; [|done]. cbn [truthy].
  destruct (String.eqb s0 EmptyString) eqn:E; [done|].
  intros [= <-]. split; [done|]. by apply String.eqb_neq.
Qed.

(** X23.  The inbound handler makes no POST for a message whose sender
    ID holds [@g.us] (a group), for a message whose type is not
    [chat], for one with a null or empty body, and for one with no
    sender. *)
Theorem onMessage_drops (url secret timestamp : string) (message : wa_message) :
  (∃ sender, msg_from message = Some sender ∧ includes "@g.us" sender = true)
  ∨ msg_type message ≠ "chat"
  ∨ truthy (msg_body message) = None
  ∨ msg_from message = None →
  onMessage url secret timestamp message = None.
Proof.
  intros H. unfold onMessage.
  destruct (match truthy (msg_from message) with
            | Some sender => includes "@g.us" sender
            | None => false
            end) eqn:Hgroup; [done|].
  destruct (String.eqb (msg_type message) "chat") eqn:Htype; [|done].
  cbn [negb]. destruct (truthy (msg_body message)) as [text|] eqn:Hbody; [|done].
  destruct (msg_from message) as [sender|] eqn:Hfrom; [|done].
  destruct H as [(sender' & [= <-] & Hin)|[H|[H|H]]]; try done.
  - cbn [truthy] in Hgroup. destruct (String.eqb sender EmptyString) eqn:E.
    + apply String.eqb_eq in E. subst sender. done.
    + congruence.
  - apply String.eqb_eq in Htype. done.
Qed.

Lemma onMessage_drops_witness :
  onMessage "https://dashboard.example/api/whatsapp" "s3cret" "2024-01-01T00:00:00.000Z"
    Samples.groupMessage = None.
Proof.
  apply onMessage_drops. left. eexists. split; reflexivity.
Defined.

(** X24.  Every POST of the inbound handler goes to the configured URL
    with the configured secret and carries the body of the message and
    the normal form of its sender ID, which begins with a plus sign and
    holds no at sign; the message was a chat text from a sender that is
    no group. *)
Theorem onMessage_forwards (url secret timestamp : string) (message : wa_message)
    (post : webhook_post) :
  onMessage url secret timestamp message = Some post →
  ∃ sender text,
    msg_from message = Some sender
    ∧ includes "@g.us" sender = false
    ∧ msg_type message = "chat"
    ∧ msg_body message = Some text ∧ text ≠ EmptyString
    ∧ post = mkPost url secret (normalizePhone sender) text
                    (waMessageId (msg_id message)) timestamp
    ∧ startsWith "+" (from_phone_e164 post) = true
    ∧ includes "@" (from_phone_e164 post) = false.
Proof.
  unfold onMessage.
  destruct (match truthy (msg_from message) with
            | Some sender => includes "@g.us" sender
            | None => false
            end) eqn:Hgroup; [done|].
  destruct (String.eqb (msg_type message) "chat") eqn:Htype; [|done].
  cbn [negb]. destruct (truthy (msg_body message)) as [text|] eqn:Hbody; [|done].
  destruct (msg_from message) as [sender|] eqn:Hfrom; [|done].
  intros [= <-]. apply truthy_Some in Hbody as [Hbody Htext].
  apply String.eqb_eq in Htype.
  exists sender, text. cbn [from_phone_e164].
  assert (normalizePhone (extractPhoneFromWhatsAppId sender) = normalizePhone sender)
    as -> by (unfold normalizePhone, extractPhoneFromWhatsAppId; by rewrite split0_idem).
  split_and!; try done.
  - cbn [truthy] in Hgroup. destruct (String.eqb sender EmptyString) eqn:E; [|done].
    apply String.eqb_eq in E. by subst sender.
  - apply normalizePhone_startsWith_plus.
  - apply includes_char_count, normalizePhone_count_at.
Qed.

Lemma onMessage_forwards_witness :
  onMessage "https://dashboard.example/api/whatsapp" "s3cret" "2024-01-01T00:00:00.000Z"
    Samples.chatMessage
  = Some (mkPost "https://dashboard.example/api/whatsapp" "s3cret" "+447900000001"
                 "Is my order ready?" (KeyString "3EB0C767D26A")
                 "2024-01-01T00:00:00.000Z").
Proof.
  destruct (onMessage_forwards "https://dashboard.example/api/whatsapp" "s3cret"
              "2024-01-01T00:00:00.000Z" Samples.chatMessage _ eq_refl)
    as (sender & text & _ & _ & _ & _ & _ & H & _).
  vm_compute. reflexivity.
Defined.

(* ===================================================================== *)
(** * Start-up and the QR code server                                     *)
(* ===================================================================== *)

(** X25.  The polling loop only ever runs with a client: when [main]
    gets to the loop the client handle is set and the flag is down, so
    a tick that claims a job with a phone calls [sendText] for it; and
    [main] ends the process, with code 1, only when the acquisition is
    fatal. *)
Theorem main_runs_with_client
    (create : Z → option node → create_result * option node) (profile : option node) :
  match main create profile with
  | Running w _ =>
      isProcessingJob w = false
      ∧ (∃ c, client w = Some c
              ∧ (startWhatsAppClient create profile).1.1 = Ready c)
      ∧ ∀ MAX_ATTEMPTS o db id job phone,
          queryReply o = Ok → claimReply o = Ok →
          selectOldestQueued (outbox_jobs db) = Some (id, job) →
          to_phone_e164 job = Some phone →
          sends (processOutboundJob MAX_ATTEMPTS o w db)
          = [(e164ToWhatsAppId (normalizePhone phone), body job)]
  | Exited code =>
      code = 1 ∧ ∃ message, (startWhatsAppClient create profile).1.1 = Fatal message
  end.
Proof.
  unfold main.
  destruct (startWhatsAppClient create profile) as [[[c|message] profile'] trace].
  - split_and!; [done | by exists c |].
    intros MAX_ATTEMPTS o db id job phone Hq Hc Hsel Hphone.
    unfold processOutboundJob. cbn [isProcessingJob client].
    rewrite (tickBody_claimed _ _ _ _ _ _ _ Hq Hc Hsel Hphone).
    match goal with
    | |- context [sendAndRecord ?m ?w ?c ?i ?u ?a ?d] =>
        pose proof (sendAndRecord_calls m w c i u a d) as Hcalls;
        destruct (sendAndRecord m w c i u a d) as [db' calls]
    end.
    cbn [snd sends] in *. by subst calls.
  - split; [done | by exists message].
Qed.

(** X26.  A request for the QR image with a query string, the form in
    which the served page asks for its refreshed image, is answered
    404 [Not found], whether the image file exists or not: only the
    exact paths [/qr-code.png] and [/qr] reach the file. *)
Theorem handleRequest_query_string (html : string) (qrFile : option string)
    (query : string) :
  handleRequest html qrFile ("/qr-code.png?" +:+ query)
  = mkResponse 404 "text/plain" None "Not found"
  ∧ handleRequest html qrFile ("/qr?" +:+ query)
    = mkResponse 404 "text/plain" None "Not found".
Proof. split; reflexivity. Qed.

(* ===================================================================== *)
(** * Edge cases                                                          *)
(* ===================================================================== *)

Lemma blank_trimStart (s : string) : blank s = true → trimStart s = EmptyString.
Proof.
  induction s as [|c r IH]; [done|]. cbn [blank trimStart].
  intros [Hc Hr]%andb_true_iff. rewrite Hc. by apply IH.
Qed.

Lemma blank_count (c : ascii) (s : string) :
  isWhiteSpace c = false → blank s = true → count c s = O.
Proof.
  intros Hc. induction s as [|d r IH]; [done|]. cbn [blank count].
  intros [Hd Hr]%andb_true_iff. rewrite (IH Hr).
  destruct (Ascii.eqb d c) eqn:E; [|done]. apply Ascii.eqb_eq in E. congruence.
Qed.

(** X27.  [normalizePhone] rejects nothing: an input that has only
    white space, or only white space before its first at sign, becomes
    the bare plus sign, and the address computed for it is the bare
    suffix [@c.us]. *)
Theorem normalizePhone_blank (space rest : string) :
  blank space = true →
  normalizePhone space = "+"
  ∧ normalizePhone (space +:+ "@" +:+ rest) = "+"
  ∧ e164ToWhatsAppId (normalizePhone (space +:+ "@" +:+ rest)) = "@c.us".
Proof.
  intros Hblank.
  pose proof (blank_count "@" space at_not_white Hblank) as Hat.
  assert (trim space = EmptyString) as Htrim
    by (unfold trim; by rewrite (blank_trimStart _ Hblank)).
  assert (normalizePhone space = "+") as Hspace.
  { unfold normalizePhone. by rewrite (split0_absent _ _ Hat), Htrim. }
  assert (normalizePhone (space +:+ "@" +:+ rest) = "+") as Hrest.
  { unfold normalizePhone. by rewrite (split0_before_at _ _ Hat), Htrim. }
  split_and!; [exact Hspace | exact Hrest |]. by rewrite Hrest.
Qed.

Lemma normalizePhone_blank_witness :
  normalizePhone "   @c.us" = "+"
  ∧ e164ToWhatsAppId (normalizePhone "   @c.us") = "@c.us".
Proof. exact (proj2 (normalizePhone_blank "   " "c.us" eq_refl)). Defined.

(** X28.  When the update that records the outcome of a send does not
    reach the store, the claimed job is left [processing] with its
    attempts raised, whether the send succeeded or failed, and the
    query of later ticks does not select it; the update of the linked
    message is still made. *)
Theorem tick_lost_update (MAX_ATTEMPTS : Z) (w : outcomes) (p : worker) (db : store)
    (id : string) (job : job) (phone error : string) :
  isProcessingJob p = false →
  queryReply w = Ok → claimReply w = Ok →
  jobUpdateReply w = Err error →
  selectOldestQueued (outbox_jobs db) = Some (id, job) →
  to_phone_e164 job = Some phone →
  let after := store_after (processOutboundJob MAX_ATTEMPTS w p db) in
  outbox_jobs after
  = <[id := withAttempts (orElse (attempts job) 0 + 1) (withStatus processing job)]>
      (outbox_jobs db)
  ∧ (∀ j, selectOldestQueued (outbox_jobs after) ≠ Some (id, j))
  ∧ (∀ cl mid, client p = Some cl → sendReply w = Sent → messageUpdateReply w = Ok →
               truthy (message_id job) = Some mid →
               messages after = alter (λ _, "sent") mid (messages db)).
Proof.
  intros Hflag Hq Hc Hju Hsel Hphone after.
  assert (outbox_jobs after
          = <[id := withAttempts (orElse (attempts job) 0 + 1)
                      (withStatus processing job)]> (outbox_jobs db)) as Hjobs.
  { unfold after, processOutboundJob. rewrite Hflag.
    rewrite (tickBody_claimed _ _ _ _ _ _ _ Hq Hc Hsel Hphone).
    match goal with
    | |- context [sendAndRecord ?m ?w ?c ?i ?u ?a ?d] =>
        destruct (sendAndRecord_jobs m w c i u a d) as (f & H & _);
        destruct (sendAndRecord m w c i u a d) as [db' calls]
    end.
    cbn [fst store_after outbox_jobs withJobs] in *. by rewrite H, Hju. }
  split_and!.
  - exact Hjobs.
  - intros j Hj. apply selectOldestQueued_Some in Hj as [Hj Hst].
    rewrite Hjobs, lookup_insert_eq in Hj. by injection Hj as <-.
  - intros cl mid Hcl Hs Hmu Hmid.
    unfold after, processOutboundJob. rewrite Hflag.
    rewrite (tickBody_claimed _ _ _ _ _ _ _ Hq Hc Hsel Hphone), Hcl.
    unfold sendAndRecord, updateById. rewrite Hs, Hju, Hmu.
    cbn [message_id withAttempts withStatus]. by rewrite Hmid.
Qed.

Lemma tick_lost_update_witness :
  rowOfStore "job-1"
    (store_after (processOutboundJob 5 (mkOutcomes Ok Ok Sent (Err "fetch failed") Ok)
                                     Samples.readyWorker Samples.db1))
  = Some (processing, Some 1, None)
  ∧ messages (store_after (processOutboundJob 5
                             (mkOutcomes Ok Ok Sent (Err "fetch failed") Ok)
                             Samples.readyWorker Samples.db1))
    = {[ "msg-1" := "sent" ]}.
Proof.
  assert (selectOldestQueued (outbox_jobs Samples.db1) = Some ("job-1", Samples.job1))
    as Hsel by (vm_compute; reflexivity).
  destruct (tick_lost_update 5 (mkOutcomes Ok Ok Sent (Err "fetch failed") Ok)
              Samples.readyWorker Samples.db1 "job-1" Samples.job1 "+15551234567"
              "fetch failed" eq_refl eq_refl eq_refl eq_refl Hsel eq_refl)
    as (H1 & _ & H3).
  split.
  - unfold rowOfStore. rewrite H1. vm_compute. reflexivity.
  - rewrite (H3 Samples.theClient "msg-1" eq_refl eq_refl eq_refl eq_refl).
    vm_compute. reflexivity.
Defined.

(** X29.  When [sendText] rejects with [null] or [undefined], the
    [catch] block fails at once on reading the message of the error:
    the one call of [sendText] is made, no update follows, and the job
    is left [processing] with its attempts raised and the [last_error]
    it had, where no later query selects it; no message row changes and
    the flag is down. *)
Theorem tick_send_rejected_null (MAX_ATTEMPTS : Z) (w : outcomes) (p : worker)
    (db : store) (cl : Whatsapp) (id : string) (job : job) (phone : string) :
  isProcessingJob p = false →
  client p = Some cl →
  queryReply w = Ok → claimReply w = Ok →
  sendReply w = Rejected Nullish →
  selectOldestQueued (outbox_jobs db) = Some (id, job) →
  to_phone_e164 job = Some phone →
  let claimed := withAttempts (orElse (attempts job) 0 + 1) (withStatus processing job) in
  let result := processOutboundJob MAX_ATTEMPTS w p db in
  result = mkResult (mkWorker (Some cl) false)
                    (withJobs (<[id := claimed]> (outbox_jobs db)) db)
                    [(e164ToWhatsAppId (normalizePhone phone), body job)]
  ∧ ∀ j, selectOldestQueued (outbox_jobs (store_after result)) ≠ Some (id, j).
Proof.
  intros Hflag Hcl Hq Hc Hs Hsel Hphone claimed result.
  assert (result = mkResult (mkWorker (Some cl) false)
                     (withJobs (<[id := claimed]> (outbox_jobs db)) db)
                     [(e164ToWhatsAppId (normalizePhone phone), body job)]) as Hres.
  { unfold result, processOutboundJob. rewrite Hflag.
    rewrite (tickBody_claimed _ _ _ _ _ _ _ Hq Hc Hsel Hphone), Hcl.
    unfold sendAndRecord. by rewrite Hs. }
  split; [done|]. rewrite Hres. cbn [store_after outbox_jobs withJobs].
  intros j Hj. apply selectOldestQueued_Some in Hj as [Hj Hst].
  rewrite lookup_insert_eq in Hj. by injection Hj as <-.
Qed.

Lemma tick_send_rejected_null_witness :
  rowOfStore "job-5"
    (store_after (processOutboundJob 2 Samples.sendThrowsNull Samples.readyWorker
                                     Samples.db5))
  = Some (processing, Some 2, None)
  ∧ messages (store_after (processOutboundJob 2 Samples.sendThrowsNull
                             Samples.readyWorker Samples.db5))
    = {[ "msg-5" := "queued" ]}.
Proof.
  assert (selectOldestQueued (outbox_jobs Samples.db5) = Some ("job-5", Samples.job5))
    as Hsel by (vm_compute; reflexivity).
  destruct (tick_send_rejected_null 2 Samples.sendThrowsNull Samples.readyWorker
              Samples.db5 Samples.theClient "job-5" Samples.job5 "+447900000002"
              eq_refl eq_refl eq_refl eq_refl eq_refl Hsel eq_refl) as [H _].
  rewrite H. split; vm_compute; reflexivity.
Defined.
